(** * nucleus::TFRecordWriter — lifecycle and resource ordering

    A shallow embedding of [third_party/nucleus/io/tfrecord_writer.cc].

    The class owns two nullable handles, [file_] (a
    [tensorflow::WritableFile]) and [writer_] (a
    [tensorflow::io::RecordWriter] holding a raw pointer to the file).
    Every method is a short sequence of calls into TensorFlow, guarded by
    null tests on the two handles.  TensorFlow itself is an external
    collaborator: each call into it is recorded in a log, and the status it
    returns is read from an arbitrary answer function, so that every theorem
    below holds for every behaviour of the collaborator. *)

From Stdlib Require Import ZArith String List Bool Lia.
From Stdlib.Strings Require Import Byte.
Import ListNotations.

(** ** TensorFlow objects seen from the writer *)

Definition bytes := list byte.

(** [tensorflow::Status]: success, or an error carrying a message. *)
Inductive Status : Type :=
| OK
| Error (error_message : string).

Definition ok (s : Status) : bool :=
  match s with
  | OK => true
  | Error _ => false
  end.

(** A [tensorflow::WritableFile] object.  [fid] is the identity of the
    object (the position, in the log, of the call that created it). *)
Record WritableFile : Type := mkFile {
  fid : nat;
  fname : string
}.

(** [RecordWriterOptions::CreateRecordWriterOptions(compression_type)]
    returns an options object by value and has no failure result; its body
    is TensorFlow's, so the object is kept symbolic: the options built from
    a given string. *)
Inductive RecordWriterOptions : Type :=
| CreateRecordWriterOptions (compression_type : string).

(** A [tensorflow::io::RecordWriter]: [dest] is the raw pointer
    [writer->file_.get()] it was constructed with. *)
Record RecordWriter : Type := mkRecordWriter {
  dest : WritableFile;
  options : RecordWriterOptions
}.

(** Calls that cross the boundary into TensorFlow.  [*_delete] is the
    destructor run when a [unique_ptr] lets go of its object. *)
Inductive Call : Type :=
| Env_NewWritableFile (filename : string)
| RecordWriter_new (file : WritableFile) (opts : RecordWriterOptions)
| RecordWriter_WriteRecord (rw : RecordWriter) (record : bytes)
| RecordWriter_Flush (rw : RecordWriter)
| RecordWriter_Close (rw : RecordWriter)
| RecordWriter_delete (rw : RecordWriter)
| WritableFile_Close (f : WritableFile)
| WritableFile_delete (f : WritableFile).

(** Calls on the compression filter / record writer. *)
Definition is_filter_call (c : Call) : bool :=
  match c with
  | RecordWriter_new _ _ | RecordWriter_WriteRecord _ _ | RecordWriter_Flush _
  | RecordWriter_Close _ | RecordWriter_delete _ => true
  | _ => false
  end.

(** Calls that close or release the sink. *)
Definition is_sink_finalize (c : Call) : bool :=
  match c with
  | WritableFile_Close _ | WritableFile_delete _ => true
  | _ => false
  end.

(** ** The world: the collaborator's answers and the log of calls *)

Record World : Type := mkWorld {
  answers : nat -> Status;   (* status returned by the n-th call *)
  calls : list Call          (* calls made so far, oldest first *)
}.

Definition init (a : nat -> Status) : World :=
  {| answers := a; calls := [] |}.

(** A computation that may call into TensorFlow. *)
Definition IO (A : Type) : Type := World -> A * World.

Definition ret {A : Type} (a : A) : IO A := fun w => (a, w).

Definition bind {A B : Type} (m : IO A) (k : A -> IO B) : IO B :=
  fun w => let (a, w') := m w in k a w'.

Declare Scope io_scope.
Delimit Scope io_scope with io.
Notation "x <- m ;; k" := (bind m (fun x => k))
  (at level 61, m at next level, right associativity) : io_scope.
Notation "m ;;; k" := (bind m (fun _ => k))
  (at level 61, right associativity) : io_scope.
Open Scope io_scope.

(** The world once one more call has been made. *)
Definition log (c : Call) (w : World) : World :=
  {| answers := answers w; calls := calls w ++ [c] |}.

(** A call that returns a [Status]. *)
Definition call (c : Call) : IO Status :=
  fun w => (answers w (length (calls w)), log c w).

(** A constructor or destructor call: it returns nothing. *)
Definition notify (c : Call) : IO unit :=
  fun w => (tt, log c w).

(** ** The class *)

Record TFRecordWriter : Type := mkWriter {
  file_ : option WritableFile;
  writer_ : option RecordWriter
}.

(** [std::unique_ptr::reset()] on each of the two members: the owned
    object, if any, is destroyed. *)
Definition reset_writer (t : TFRecordWriter) : IO TFRecordWriter :=
  match writer_ t with
  | Some rw =>
      notify (RecordWriter_delete rw) ;;;
      ret {| file_ := file_ t; writer_ := None |}
  | None => ret t
  end.

Definition reset_file (t : TFRecordWriter) : IO TFRecordWriter :=
  match file_ t with
  | Some f =>
      notify (WritableFile_delete f) ;;;
      ret {| file_ := None; writer_ := writer_ t |}
  | None => ret t
  end.

(** [TFRecordWriter::New].  [None] is the null pointer.  When
    [NewWritableFile] fails the local [file] pointer holds no object, so
    leaving the function destroys nothing; the [LOG(ERROR)] line has no
    effect on the writer and is left out. *)
Definition New (filename compression_type : string)
  : IO (option TFRecordWriter) :=
  fun w0 =>
    let file := {| fid := length (calls w0); fname := filename |} in
    (s <- call (Env_NewWritableFile filename) ;;
     if negb (ok s) then
       ret None
     else
       let opts := CreateRecordWriterOptions compression_type in
       let rw := {| dest := file; options := opts |} in
       notify (RecordWriter_new file opts) ;;;
       ret (Some {| file_ := Some file; writer_ := Some rw |})) w0.

(** [TFRecordWriter::~TFRecordWriter]: the writer is let go first, then
    the file. *)
Definition Delete (t : TFRecordWriter) : IO TFRecordWriter :=
  t1 <- reset_writer t ;;
  reset_file t1.

(** [TFRecordWriter::WriteRecord]. *)
Definition WriteRecord (record : bytes) (t : TFRecordWriter)
  : IO (bool * TFRecordWriter) :=
  match writer_ t with
  | None => ret (false, t)
  | Some rw =>
      s <- call (RecordWriter_WriteRecord rw record) ;;
      ret (ok s, t)
  end.

(** [TFRecordWriter::Flush]. *)
Definition Flush (t : TFRecordWriter) : IO (bool * TFRecordWriter) :=
  match writer_ t with
  | None => ret (false, t)
  | Some rw =>
      s <- call (RecordWriter_Flush rw) ;;
      ret (ok s, t)
  end.

(** The second block of [Close]: [if (file_ != nullptr) { ... }] and the
    final [return true]. *)
Definition Close_file (t : TFRecordWriter) : IO (bool * TFRecordWriter) :=
  match file_ t with
  | Some f =>
      s <- call (WritableFile_Close f) ;;
      if negb (ok s) then
        ret (false, t)
      else
        t1 <- reset_file t ;;
        ret (true, t1)
  | None => ret (true, t)
  end.

(** [TFRecordWriter::Close]. *)
Definition Close (t : TFRecordWriter) : IO (bool * TFRecordWriter) :=
  match writer_ t with
  | Some rw =>
      s <- call (RecordWriter_Close rw) ;;
      if negb (ok s) then
        ret (false, t)
      else
        t1 <- reset_writer t ;;
        Close_file t1
  | None => Close_file t
  end.

(** ** Sequences of operations on one writer *)

Inductive Op : Type :=
| OpWriteRecord (record : bytes)
| OpFlush
| OpClose.

Definition step (op : Op) (t : TFRecordWriter) : IO (bool * TFRecordWriter) :=
  match op with
  | OpWriteRecord record => WriteRecord record t
  | OpFlush => Flush t
  | OpClose => Close t
  end.

Fixpoint run (ops : list Op) (t : TFRecordWriter)
  : IO (list bool * TFRecordWriter) :=
  match ops with
  | [] => ret ([], t)
  | op :: rest =>
      r <- step op t ;;
      rs <- run rest (snd r) ;;
      ret (fst r :: fst rs, snd rs)
  end.

(** A whole lifetime: [New], some operations, then destruction.  When
    [New] returns the null pointer there is nothing to operate on. *)
Definition lifetime (filename compression_type : string) (ops : list Op)
  : IO (option (list bool)) :=
  o <- New filename compression_type ;;
  match o with
  | None => ret None
  | Some t =>
      rs <- run ops t ;;
      Delete (snd rs) ;;;
      ret (Some (fst rs))
  end.

(** Lifecycle states, read off the two handles. *)
Definition is_open (t : TFRecordWriter) : bool :=
  match writer_ t, file_ t with
  | Some _, Some _ => true
  | _, _ => false
  end.

Definition is_closed (t : TFRecordWriter) : bool :=
  match writer_ t, file_ t with
  | None, None => true
  | _, _ => false
  end.

Definition closed : TFRecordWriter := {| file_ := None; writer_ := None |}.

Definition is_some {A : Type} (o : option A) : bool :=
  match o with
  | Some _ => true
  | None => false
  end.

(** The compression-type strings the specification recognises. *)
Definition recognized (compression_type : string) : bool :=
  String.eqb compression_type "" ||
  String.eqb compression_type "GZIP" ||
  String.eqb compression_type "ZLIB".

(** The result each operation gives on a closed writer. *)
Definition closed_result (op : Op) : bool :=
  match op with
  | OpClose => true
  | OpWriteRecord _ | OpFlush => false
  end.

(** ** Concrete worlds used by the examples *)

Definition always_ok : nat -> Status := fun _ => OK.

(** Every call succeeds except the [n]-th. *)
Definition fails_at (n : nat) : nat -> Status :=
  fun i => if Nat.eqb i n then Error "injected failure" else OK.

(** Every call from the [n]-th on fails. *)
Definition fails_from (n : nat) : nat -> Status :=
  fun i => if Nat.leb n i then Error "injected failure" else OK.

Definition file0 : WritableFile := {| fid := 0; fname := "out.tfrecord" |}.

Definition rw0 (compression_type : string) : RecordWriter :=
  {| dest := file0; options := CreateRecordWriterOptions compression_type |}.

Definition open0 (compression_type : string) : TFRecordWriter :=
  {| file_ := Some file0; writer_ := Some (rw0 compression_type) |}.

(** The world right after a successful [New "out.tfrecord" ct]. *)
Definition world0 (a : nat -> Status) (compression_type : string) : World :=
  {| answers := a;
     calls := [Env_NewWritableFile "out.tfrecord";
               RecordWriter_new file0
                 (CreateRecordWriterOptions compression_type)] |}.

(** What a caller observes of [New] followed by [ops] in a fresh world:
    the results and the final writer (when [New] gave one), and the log. *)
Definition session (a : nat -> Status) (filename compression_type : string)
    (ops : list Op) : option (list bool * TFRecordWriter) * list Call :=
  match New filename compression_type (init a) with
  | (None, w) => (None, calls w)
  | (Some t, w) =>
      match run ops t w with
      | (r, w') => (Some r, calls w')
      end
  end.

(** ** Ordering of the calls in a log *)

(** No call so far has closed or released the sink. *)
Definition no_sink_call (l : list Call) : Prop :=
  forall i c, nth_error l i = Some c -> is_sink_finalize c = false.

(** The record writer was released before position [i]. *)
Definition filter_released (l : list Call) (i : nat) : Prop :=
  exists j rw, j < i /\ nth_error l j = Some (RecordWriter_delete rw).

(** The record writer's Close was called, and succeeded, before position
    [i]. *)
Definition filter_closed (a : nat -> Status) (l : list Call) (i : nat)
  : Prop :=
  exists j rw,
    j < i /\ nth_error l j = Some (RecordWriter_Close rw) /\ ok (a j) = true.

(** Filter before sink, over a whole log. *)
Record ordered (w : World) : Prop := mkOrdered {
  sink_after_release :
    forall i c,
      nth_error (calls w) i = Some c -> is_sink_finalize c = true ->
      filter_released (calls w) i;
  sink_close_after_filter_close :
    forall i f,
      nth_error (calls w) i = Some (WritableFile_Close f) ->
      filter_closed (answers w) (calls w) i;
  no_filter_after_sink :
    forall i j c c',
      i < j ->
      nth_error (calls w) i = Some c -> is_sink_finalize c = true ->
      nth_error (calls w) j = Some c' -> is_filter_call c' = false
}.

(** What holds of a writer and the world between two operations. *)
Definition Inv (t : TFRecordWriter) (w : World) : Prop :=
  match writer_ t with
  | Some _ => no_sink_call (calls w)
  | None =>
      ordered w /\
      filter_released (calls w) (length (calls w)) /\
      filter_closed (answers w) (calls w) (length (calls w))
  end.

(** The record writer's handle is set only while the file's is. *)
Definition handles_ok (t : TFRecordWriter) : bool :=
  implb (is_some (writer_ t)) (is_some (file_ t)).

(** ** One move at a time *)

(** What a method can do to the writer and the world in one go: a call
    that leaves the handles alone, or a Close of one object, which releases
    that object's handle when, and only when, it succeeded.  The file is
    only closed once the record writer's handle is null. *)
Inductive move : TFRecordWriter * World -> TFRecordWriter * World -> Prop :=
| move_WriteRecord :
    forall t w rw record,
      writer_ t = Some rw ->
      move (t, w) (t, log (RecordWriter_WriteRecord rw record) w)
| move_Flush :
    forall t w rw,
      writer_ t = Some rw ->
      move (t, w) (t, log (RecordWriter_Flush rw) w)
| move_writer_Close_failed :
    forall t w rw,
      writer_ t = Some rw ->
      ok (answers w (length (calls w))) = false ->
      move (t, w) (t, log (RecordWriter_Close rw) w)
| move_writer_Close_ok :
    forall t w rw,
      writer_ t = Some rw ->
      ok (answers w (length (calls w))) = true ->
      move (t, w)
           ({| file_ := file_ t; writer_ := None |},
            log (RecordWriter_delete rw) (log (RecordWriter_Close rw) w))
| move_file_Close_failed :
    forall t w f,
      writer_ t = None -> file_ t = Some f ->
      ok (answers w (length (calls w))) = false ->
      move (t, w) (t, log (WritableFile_Close f) w)
| move_file_Close_ok :
    forall t w f,
      writer_ t = None -> file_ t = Some f ->
      ok (answers w (length (calls w))) = true ->
      move (t, w)
           ({| file_ := None; writer_ := None |},
            log (WritableFile_delete f) (log (WritableFile_Close f) w)).

Inductive reaches : TFRecordWriter * World -> TFRecordWriter * World -> Prop :=
| reaches_refl : forall s, reaches s s
| reaches_move : forall s1 s2 s3, move s1 s2 -> reaches s2 s3 -> reaches s1 s3.

(** ** Counting calls *)

Definition is_close_op (op : Op) : bool :=
  match op with
  | OpClose => true
  | OpWriteRecord _ | OpFlush => false
  end.

(** The call an operation makes on an open writer, first of all. *)
Definition op_call (rw : RecordWriter) (op : Op) : Call :=
  match op with
  | OpWriteRecord record => RecordWriter_WriteRecord rw record
  | OpFlush => RecordWriter_Flush rw
  | OpClose => RecordWriter_Close rw
  end.

Definition is_RecordWriter_Close (c : Call) : bool :=
  match c with RecordWriter_Close _ => true | _ => false end.

Definition is_WritableFile_Close (c : Call) : bool :=
  match c with WritableFile_Close _ => true | _ => false end.

Definition is_RecordWriter_delete (c : Call) : bool :=
  match c with RecordWriter_delete _ => true | _ => false end.

Definition is_WritableFile_delete (c : Call) : bool :=
  match c with WritableFile_delete _ => true | _ => false end.

(** How many calls of a log satisfy [p]. *)
Definition count (p : Call -> bool) (l : list Call) : nat :=
  length (filter p l).

(** How many calls of [l] satisfy [p] and were answered with success, the
    first call of [l] being the [i]-th call of the world. *)
Fixpoint count_ok_from (a : nat -> Status) (p : Call -> bool) (i : nat)
    (l : list Call) : nat :=
  match l with
  | [] => 0
  | c :: rest =>
      (if p c && ok (a i) then 1 else 0) + count_ok_from a p (S i) rest
  end.

Definition count_ok (p : Call -> bool) (w : World) : nat :=
  count_ok_from (answers w) p 0 (calls w).

(** 1 for a handle that holds an object, 0 for a null one. *)
Definition held {A : Type} (o : option A) : nat :=
  match o with
  | Some _ => 1
  | None => 0
  end.

Definition is_Env_NewWritableFile (c : Call) : bool :=
  match c with Env_NewWritableFile _ => true | _ => false end.

Definition is_RecordWriter_new (c : Call) : bool :=
  match c with RecordWriter_new _ _ => true | _ => false end.

(** The call is on the file [f] or on the record writer [rw]; a call that
    opens a file opens the one [f] stands for, and a call that builds a
    record writer builds [rw]. *)
Definition call_on (f : WritableFile) (rw : RecordWriter) (c : Call) : Prop :=
  match c with
  | Env_NewWritableFile filename => filename = fname f
  | RecordWriter_new f' opts => f' = f /\ opts = options rw
  | RecordWriter_WriteRecord rw' _ | RecordWriter_Flush rw'
  | RecordWriter_Close rw' | RecordWriter_delete rw' => rw' = rw
  | WritableFile_Close f' | WritableFile_delete f' => f' = f
  end.

(** Each handle is null or holds the given object. *)
Definition handles_within (f : WritableFile) (rw : RecordWriter)
    (t : TFRecordWriter) : Prop :=
  (file_ t = None \/ file_ t = Some f) /\
  (writer_ t = None \/ writer_ t = Some rw).

(** The records handed to the record writer, in the order of the log. *)
Fixpoint written (l : list Call) : list bytes :=
  match l with
  | [] => []
  | RecordWriter_WriteRecord _ record :: rest => record :: written rest
  | _ :: rest => written rest
  end.

(** How many operations, from the first on, find the record writer's
    handle set when they start. *)
Fixpoint served (ops : list Op) (t : TFRecordWriter) (w : World) : nat :=
  match ops with
  | [] => 0
  | op :: rest =>
      match writer_ t with
      | None => 0
      | Some _ =>
          S (served rest (snd (fst (step op t w))) (snd (step op t w)))
      end
  end.

(** The records a sequence of operations asks to write. *)
Fixpoint records (ops : list Op) : list bytes :=
  match ops with
  | [] => []
  | OpWriteRecord record :: rest => record :: records rest
  | _ :: rest => records rest
  end.

(** The statuses [n] consecutive calls receive, from the [i]-th on. *)
Definition results_from (a : nat -> Status) (i n : nat) : list bool :=
  map (fun k => ok (a k)) (seq i n).

(** ** The frame codec *)

(** Modelled from the spec: the body of
    [tensorflow::io::RecordWriter::WriteRecord], which frames a record, is
    TensorFlow's and is not part of this repository.  The definitions of
    this section follow sections 3, 4.1 and 6 of the specification: a frame
    is the little-endian [uint64] length, the little-endian [uint32] masked
    CRC-32C of the length bytes, the payload, and the little-endian [uint32]
    masked CRC-32C of the payload.  The specification leaves the rotation
    and the offset of the masking to the format definition; they are the
    parameters [kMaskRotate] and [kMaskDelta]. *)

Definition byte_of_Z (z : Z) : byte :=
  match Byte.of_N (Z.to_N (z mod 256)%Z) with
  | Some b => b
  | None => x00
  end.

Definition Z_of_byte (b : byte) : Z := Z.of_N (Byte.to_N b).

(** Modelled from the spec: [n] bytes of [v], least significant first. *)
Fixpoint EncodeFixed (n : nat) (v : Z) : bytes :=
  match n with
  | O => []
  | S k => byte_of_Z v :: EncodeFixed k (v / 256)%Z
  end.

Definition EncodeFixed64 (v : Z) : bytes := EncodeFixed 8 v.
Definition EncodeFixed32 (v : Z) : bytes := EncodeFixed 4 v.

(** The integer a little-endian byte string stands for. *)
Fixpoint DecodeFixed (bs : bytes) : Z :=
  match bs with
  | [] => 0%Z
  | b :: rest => (Z_of_byte b + 256 * DecodeFixed rest)%Z
  end.

(** Modelled from the spec: CRC-32C, the Castagnoli polynomial in its
    reflected form, one bit at a time. *)
Definition crc32c_bit (crc : Z) : Z :=
  Z.lxor (Z.shiftr crc 1) (if Z.testbit crc 0 then 0x82F63B78 else 0)%Z.

Definition crc32c_byte (crc : Z) (b : byte) : Z :=
  Nat.iter 8 crc32c_bit (Z.lxor crc (Z_of_byte b)).

Definition crc32c (bs : bytes) : Z :=
  Z.lxor (fold_left crc32c_byte bs 0xFFFFFFFF%Z) 0xFFFFFFFF%Z.

Section FrameCodec.

Variable kMaskRotate : Z.
Variable kMaskDelta : Z.

(** Modelled from the spec: the raw CRC rotated right within 32 bits,
    then offset by a constant, as a [uint32]. *)
Definition Mask (crc : Z) : Z :=
  ((Z.lor (Z.shiftr crc kMaskRotate)
          (Z.shiftl crc (32 - kMaskRotate) mod 2 ^ 32)
    + kMaskDelta) mod 2 ^ 32)%Z.

Definition MaskedCrc (bs : bytes) : Z := Mask (crc32c bs).

(** Modelled from the spec: [Encode(payload)]. *)
Definition Encode (payload : bytes) : bytes :=
  let header := EncodeFixed64 (Z.of_nat (length payload)) in
  header ++ EncodeFixed32 (MaskedCrc header)
         ++ payload ++ EncodeFixed32 (MaskedCrc payload).

(** Modelled from the spec: the frame a call asks the sink chain to
    take, when the call is a record write. *)
Definition frame_of_call (c : Call) : option bytes :=
  match c with
  | RecordWriter_WriteRecord _ record => Some (Encode record)
  | _ => None
  end.

End FrameCodec.

(** The masking constants of the TFRecord format. *)
Definition tf_kMaskRotate : Z := 15%Z.
Definition tf_kMaskDelta : Z := 0xa282ead8%Z.

(** * Properties *)

Ltac unfold_io :=
  unfold Close, Close_file, WriteRecord, Flush, New, Delete,
    reset_writer, reset_file, bind, ret, call, notify, log in *;
  cbn [file_ writer_ answers calls fst snd negb] in *.

(** ** Single operations *)

Lemma Close_file_ok_closes :
  forall t w t' w',
    writer_ t = None ->
    Close_file t w = (true, t', w') -> t' = closed.
Proof.
  intros [[f|] wr] w t' w' Hw; cbn in Hw; subst wr; unfold_io.
  - destruct (ok (answers w (length (calls w)))); cbn;
      intros H; inversion H; reflexivity.
  - intros H; inversion H; reflexivity.
Qed.

(** [Close], with the collaborator's answer made explicit. *)
Lemma Close_eq :
  forall t w,
    Close t w =
      match writer_ t with
      | Some rw =>
          if ok (answers w (length (calls w))) then
            Close_file {| file_ := file_ t; writer_ := None |}
              (log (RecordWriter_delete rw) (log (RecordWriter_Close rw) w))
          else
            (false, t, log (RecordWriter_Close rw) w)
      | None => Close_file t w
      end.
Proof.
  intros t w. unfold Close. destruct (writer_ t) as [rw|] eqn:Hw; [|reflexivity].
  unfold bind at 1. unfold call at 1.
  destruct (ok (answers w (length (calls w)))); cbn [negb]; [|reflexivity].
  unfold bind at 1. unfold reset_writer. rewrite Hw. reflexivity.
Qed.

Lemma Close_ok_closes :
  forall t w t' w', Close t w = (true, t', w') -> t' = closed.
Proof.
  intros t w t' w' H. rewrite Close_eq in H.
  destruct (writer_ t) as [rw|] eqn:Hw.
  - destruct (ok (answers w (length (calls w)))); [|discriminate].
    eapply Close_file_ok_closes; [ | exact H ]. reflexivity.
  - eapply Close_file_ok_closes; [ | exact H ]. exact Hw.
Qed.

Lemma Close_closed : forall w, Close closed w = (true, closed, w).
Proof. reflexivity. Qed.

Lemma WriteRecord_closed :
  forall record w, WriteRecord record closed w = (false, closed, w).
Proof. reflexivity. Qed.

Lemma Flush_closed : forall w, Flush closed w = (false, closed, w).
Proof. reflexivity. Qed.

Lemma is_closed_eq : forall t, is_closed t = true -> t = closed.
Proof. intros [[f|] [rw|]]; cbn; intros H; try discriminate; reflexivity. Qed.

Lemma run_closed :
  forall ops w, run ops closed w = (map closed_result ops, closed, w).
Proof.
  induction ops as [|op ops IH]; intros w.
  - reflexivity.
  - cbn [run map]. unfold bind at 1.
    assert (Hs : step op closed w = (closed_result op, closed, w))
      by (destruct op; reflexivity).
    rewrite Hs. cbn [snd fst]. unfold bind at 1. rewrite IH. reflexivity.
Qed.

(** C4.  Close is idempotent: on a writer that is already closed (both
    handles null) Close returns true, changes nothing and calls nothing;
    and whenever a Close returns true, the Close that follows it returns
    true as well, again without any call. *)
Theorem Close_idempotent :
  forall t w,
    (is_closed t = true -> Close t w = (true, t, w)) /\
    (forall t' w', Close t w = (true, t', w') ->
                   Close t' w' = (true, t', w')).
Proof.
  intros t w; split.
  - intros H. apply is_closed_eq in H. subst t. apply Close_closed.
  - intros t' w' H. apply Close_ok_closes in H. subst t'. apply Close_closed.
Qed.

(** C5.  After a Close that returned true, WriteRecord and Flush return
    false, leave the writer as it is and leave the world as it is: the log
    gains no call, so nothing reaches the sink chain. *)
Theorem closed_rejects_io :
  forall t w t' w',
    Close t w = (true, t', w') ->
    forall record,
      WriteRecord record t' w' = (false, t', w') /\
      Flush t' w' = (false, t', w').
Proof.
  intros t w t' w' H record.
  apply Close_ok_closes in H. subst t'.
  split; [apply WriteRecord_closed | apply Flush_closed].
Qed.

(** C10.  When Close returns true both handles are null afterwards; and
    from the state where both are null every sequence of operations gives
    false for each WriteRecord and Flush and true for each Close, ends in
    the same state and makes no call. *)
Theorem closed_is_permanent :
  forall t w,
    (forall t' w', Close t w = (true, t', w') ->
                   file_ t' = None /\ writer_ t' = None) /\
    (is_closed t = true ->
     forall ops, run ops t w = (map closed_result ops, t, w)).
Proof.
  intros t w; split.
  - intros t' w' H. apply Close_ok_closes in H. subst t'. split; reflexivity.
  - intros H ops. apply is_closed_eq in H. subst t. apply run_closed.
Qed.

(** C6.  On an open writer, when the downstream
    [RecordWriter::WriteRecord] returns an error status, WriteRecord
    returns false and the writer is unchanged (both handles kept), the only
    call made being that write; if the next downstream write succeeds, the
    next WriteRecord returns true, the writer still unchanged. *)
Theorem WriteRecord_failure_keeps_open :
  forall t w rw record,
    writer_ t = Some rw ->
    ok (answers w (length (calls w))) = false ->
    exists w',
      WriteRecord record t w = (false, t, w') /\
      calls w' = calls w ++ [RecordWriter_WriteRecord rw record] /\
      answers w' = answers w /\
      forall record2,
        ok (answers w' (length (calls w'))) = true ->
        fst (WriteRecord record2 t w') = (true, t).
Proof.
  intros t w rw record Hrw Hfail.
  unfold WriteRecord. rewrite Hrw. unfold bind, call, ret, log.
  rewrite Hfail. eexists. split; [reflexivity|].
  cbn [calls answers]. split; [reflexivity|]. split; [reflexivity|].
  intros record2 Hok. rewrite Hok. reflexivity.
Qed.

(** C7, as the code has it.  New fails exactly when [NewWritableFile]
    fails: it then returns the null pointer, having made that one call and
    built no writer.  When [NewWritableFile] succeeds New returns a writer,
    whatever the compression type, recognised or not: both handles are set,
    the record writer points at the writer's own file and carries the
    options built from the string as given.  Building the options and the
    record writer has no failure result, so there is no other outcome. *)
Theorem New_all_or_nothing :
  forall filename compression_type w,
    let f := {| fid := length (calls w); fname := filename |} in
    let opts := CreateRecordWriterOptions compression_type in
    let t := {| file_ := Some f;
                writer_ := Some {| dest := f; options := opts |} |} in
    (ok (answers w (length (calls w))) = false ->
     New filename compression_type w =
       (None, log (Env_NewWritableFile filename) w)) /\
    (ok (answers w (length (calls w))) = true ->
     New filename compression_type w =
       (Some t,
        log (RecordWriter_new f opts) (log (Env_NewWritableFile filename) w))
     /\ is_open t = true) /\
    (forall t', fst (New filename compression_type w) = Some t' ->
                t' = t /\ ok (answers w (length (calls w))) = true).
Proof.
  intros filename ct w. cbv zeta.
  unfold New, bind, call, notify, ret.
  destruct (ok (answers w (length (calls w)))); cbn [negb fst snd].
  - split; [discriminate|]. split.
    + intros _. split; reflexivity.
    + intros t' H. inversion H. split; reflexivity.
  - split; [intros _; reflexivity|]. split; discriminate.
Qed.

(** C3, as the code has it.  Whether New returns a writer is decided by
    [NewWritableFile] alone: for every compression-type string, recognised
    or not, New returns a writer exactly when that call succeeds, and the
    string reaches [CreateRecordWriterOptions] unexamined. *)
Theorem New_ignores_compression_type :
  forall filename compression_type w,
    is_some (fst (New filename compression_type w)) =
      ok (answers w (length (calls w))) /\
    forall t, fst (New filename compression_type w) = Some t ->
      option_map options (writer_ t) =
        Some (CreateRecordWriterOptions compression_type).
Proof.
  intros filename ct w. unfold New, bind, call, notify, ret, log.
  destruct (ok (answers w (length (calls w)))); cbn [negb fst is_some].
  - split; [reflexivity|]. intros t H. inversion H. reflexivity.
  - split; [reflexivity|]. discriminate.
Qed.

(** C2, as the code has it.  On an open writer, when the record writer
    closes but the file's Close fails, Close returns false; the record
    writer's handle has been released and the file's handle is kept.  A
    retried Close makes no call on the record writer, calls the file's Close
    again, and returns what that call reports (releasing the file when it
    succeeds). *)
Theorem Close_sink_failure_keeps_file :
  forall t w rw f,
    writer_ t = Some rw ->
    file_ t = Some f ->
    ok (answers w (length (calls w))) = true ->
    ok (answers w (length (calls w) + 2)) = false ->
    let t1 := {| file_ := Some f; writer_ := None |} in
    let w1 := {| answers := answers w;
                 calls := calls w ++ [RecordWriter_Close rw;
                                      RecordWriter_delete rw;
                                      WritableFile_Close f] |} in
    let again := ok (answers w (length (calls w) + 3)) in
    Close t w = (false, t1, w1) /\
    fst (Close t1 w1) =
      (again, if again then closed else t1) /\
    calls (snd (Close t1 w1)) =
      calls w1 ++ WritableFile_Close f ::
                  (if again then [WritableFile_delete f] else []).
Proof.
  intros [fl wr] w rw f Hrw Hf Hok Hfail; cbn in Hrw, Hf; subst fl wr.
  cbn zeta. unfold_io.
  rewrite Hok. cbn [negb calls answers].
  rewrite !length_app. cbn [length].
  replace (length (calls w) + 1 + 1) with (length (calls w) + 2) by lia.
  rewrite Hfail. cbn [negb].
  rewrite <- !app_assoc. cbn [app].
  split; [reflexivity|].
  destruct (ok (answers w (length (calls w) + 3))); cbn [negb fst snd calls];
    rewrite <- ?app_assoc; cbn [app]; split; reflexivity.
Qed.

(** ** Logs that grow by one call *)

Lemma nth_error_snoc :
  forall (l : list Call) e i c,
    nth_error (l ++ [e]) i = Some c ->
    (i < length l /\ nth_error l i = Some c) \/ (i = length l /\ c = e).
Proof.
  intros l e i c H.
  destruct (Nat.lt_ge_cases i (length l)) as [Hlt|Hge].
  - left. rewrite nth_error_app1 in H by exact Hlt. auto.
  - right. rewrite nth_error_app2 in H by exact Hge.
    destruct (i - length l) as [|k] eqn:Hk; cbn in H.
    + inversion H. split; [lia | reflexivity].
    + destruct k; discriminate.
Qed.

Lemma nth_error_snoc_old :
  forall (l : list Call) e i c,
    nth_error l i = Some c -> nth_error (l ++ [e]) i = Some c.
Proof.
  intros l e i c H. rewrite nth_error_app1; [exact H|].
  apply nth_error_Some. congruence.
Qed.

Lemma nth_error_snoc_new :
  forall (l : list Call) e, nth_error (l ++ [e]) (length l) = Some e.
Proof.
  intros l e. rewrite nth_error_app2 by lia.
  rewrite Nat.sub_diag. reflexivity.
Qed.

Lemma no_sink_snoc :
  forall l e,
    no_sink_call l -> is_sink_finalize e = false -> no_sink_call (l ++ [e]).
Proof.
  intros l e Hl He i c H.
  apply nth_error_snoc in H. destruct H as [[_ H]|[_ H]].
  - exact (Hl i c H).
  - subst c. exact He.
Qed.

Lemma no_sink_ordered : forall w, no_sink_call (calls w) -> ordered w.
Proof.
  intros w H. constructor.
  - intros i c Hi Hc. rewrite (H i c Hi) in Hc. discriminate.
  - intros i f Hi. specialize (H i _ Hi). discriminate.
  - intros i j c c' _ Hi Hc. rewrite (H i c Hi) in Hc. discriminate.
Qed.

Lemma filter_released_snoc :
  forall l e i i',
    filter_released l i -> i <= i' -> filter_released (l ++ [e]) i'.
Proof.
  intros l e i i' (j & rw & Hj & Hn) Hle.
  exists j, rw. split; [lia | apply nth_error_snoc_old; exact Hn].
Qed.

Lemma filter_closed_snoc :
  forall a l e i i',
    filter_closed a l i -> i <= i' -> filter_closed a (l ++ [e]) i'.
Proof.
  intros a l e i i' (j & rw & Hj & Hn & Hok) Hle.
  exists j, rw. split; [lia|]. split; [apply nth_error_snoc_old; exact Hn|].
  exact Hok.
Qed.

(** A call that is not on the record writer may follow, provided the
    record writer is already released (and already closed, when the call is
    the file's Close). *)
Lemma ordered_snoc_sink :
  forall w e,
    ordered w ->
    is_filter_call e = false ->
    filter_released (calls w) (length (calls w)) ->
    (forall f, e = WritableFile_Close f ->
               filter_closed (answers w) (calls w) (length (calls w))) ->
    ordered (log e w).
Proof.
  intros w e [H1 H2 H3] He Hrel Hcl. constructor; cbn [log calls answers].
  - intros i c Hi Hc. apply nth_error_snoc in Hi.
    destruct Hi as [[Hlt Hi]|[Hi Hce]].
    + eapply filter_released_snoc; [exact (H1 i c Hi Hc) | lia].
    + subst i. eapply filter_released_snoc; [exact Hrel | lia].
  - intros i f Hi. apply nth_error_snoc in Hi.
    destruct Hi as [[Hlt Hi]|[Hi Hce]].
    + eapply filter_closed_snoc; [exact (H2 i f Hi) | lia].
    + subst i. eapply filter_closed_snoc; [exact (Hcl f (eq_sym Hce)) | lia].
  - intros i j c c' Hij Hi Hc Hj.
    apply nth_error_snoc in Hi. apply nth_error_snoc in Hj.
    destruct Hj as [[Hjl Hj]|[Hj Hce]].
    + destruct Hi as [[_ Hi]|[Hi _]]; [|lia].
      exact (H3 i j c c' Hij Hi Hc Hj).
    + subst c'. exact He.
Qed.

(** ** The invariant along a run *)

Lemma Inv_ordered : forall t w, Inv t w -> ordered w.
Proof.
  intros t w H. unfold Inv in H. destruct (writer_ t).
  - apply no_sink_ordered. exact H.
  - apply H.
Qed.

Lemma Inv_New :
  forall a filename compression_type t w,
    New filename compression_type (init a) = (Some t, w) -> Inv t w.
Proof.
  intros a filename ct t w. unfold New, bind, call, notify, ret, log, init.
  cbn [calls answers length]. destruct (ok (a 0)); cbn [negb]; [|discriminate].
  intros H. inversion H; subst. unfold Inv. cbn [writer_ calls app].
  intros [|[|[|i]]] c Hi; cbn in Hi; inversion Hi; reflexivity.
Qed.

Lemma Inv_Close_file :
  forall t w,
    writer_ t = None -> Inv t w ->
    writer_ (snd (fst (Close_file t w))) = None /\
    Inv (snd (fst (Close_file t w))) (snd (Close_file t w)).
Proof.
  intros [[f|] wr] w Hw HI; cbn in Hw; subst wr.
  - unfold Inv in HI. cbn [writer_] in HI. destruct HI as (Ho & Hr & Hc).
    assert (Ho1 : ordered (log (WritableFile_Close f) w)).
    { apply ordered_snoc_sink; auto. }
    assert (Hr1 : filter_released (calls (log (WritableFile_Close f) w))
                    (length (calls (log (WritableFile_Close f) w)))).
    { cbn [log calls]. eapply filter_released_snoc; [exact Hr|].
      rewrite length_app. lia. }
    assert (Hc1 : filter_closed (answers w)
                    (calls (log (WritableFile_Close f) w))
                    (length (calls (log (WritableFile_Close f) w)))).
    { cbn [log calls]. eapply filter_closed_snoc; [exact Hc|].
      rewrite length_app. lia. }
    unfold Close_file, reset_file, bind, call, notify, ret.
    cbn [file_ writer_].
    destruct (ok (answers w (length (calls w)))); cbn [negb fst snd].
    + split; [reflexivity|]. unfold Inv. cbn [writer_].
      split; [|split].
      * apply ordered_snoc_sink; auto.
      * cbn [log calls]. eapply filter_released_snoc; [exact Hr1|].
        cbn [log calls]. rewrite !length_app. lia.
      * cbn [log calls answers]. eapply filter_closed_snoc; [exact Hc1|].
        cbn [log calls]. rewrite !length_app. lia.
    + split; [reflexivity|]. unfold Inv. cbn [writer_]. auto.
  - cbn. split; [reflexivity | exact HI].
Qed.

Lemma Inv_snoc_filter :
  forall t w e,
    writer_ t <> None -> Inv t w -> is_sink_finalize e = false ->
    Inv t (log e w).
Proof.
  intros t w e Hw HI He. unfold Inv in *.
  destruct (writer_ t); [|congruence].
  cbn [log calls]. apply no_sink_snoc; assumption.
Qed.

Lemma Inv_Close :
  forall t w, Inv t w -> Inv (snd (fst (Close t w))) (snd (Close t w)).
Proof.
  intros t w HI. rewrite Close_eq. destruct (writer_ t) as [rw|] eqn:Hw.
  - destruct (ok (answers w (length (calls w)))) eqn:Hok.
    + apply Inv_Close_file; [reflexivity|].
      assert (Hns : no_sink_call
                      (calls (log (RecordWriter_delete rw)
                                (log (RecordWriter_Close rw) w)))).
      { unfold Inv in HI. rewrite Hw in HI. cbn [log calls].
        apply no_sink_snoc; [apply no_sink_snoc|]; auto. }
      unfold Inv. cbn [writer_]. split; [|split].
      * apply no_sink_ordered. exact Hns.
      * exists (S (length (calls w))), rw. cbn [log calls].
        split; [rewrite !length_app; cbn; lia|].
        replace (S (length (calls w)))
          with (length (calls w ++ [RecordWriter_Close rw]))
          by (rewrite length_app; cbn; lia).
        apply nth_error_snoc_new.
      * exists (length (calls w)), rw. cbn [log calls answers].
        split; [rewrite !length_app; cbn; lia|].
        split; [|exact Hok].
        apply nth_error_snoc_old. apply nth_error_snoc_new.
    + cbn [fst snd].
      apply Inv_snoc_filter; [congruence | exact HI | reflexivity].
  - apply Inv_Close_file; assumption.
Qed.

Lemma Inv_step :
  forall op t w, Inv t w -> Inv (snd (fst (step op t w))) (snd (step op t w)).
Proof.
  intros [record| |] t w HI; cbn [step].
  - unfold WriteRecord. destruct (writer_ t) eqn:Hw; [|exact HI].
    unfold bind, call, ret. cbn [fst snd].
    apply Inv_snoc_filter; [congruence | exact HI | reflexivity].
  - unfold Flush. destruct (writer_ t) eqn:Hw; [|exact HI].
    unfold bind, call, ret. cbn [fst snd].
    apply Inv_snoc_filter; [congruence | exact HI | reflexivity].
  - apply Inv_Close. exact HI.
Qed.

Lemma run_cons :
  forall op ops t w,
    run (op :: ops) t w =
      (fst (fst (step op t w))
         :: fst (fst (run ops (snd (fst (step op t w))) (snd (step op t w)))),
       snd (fst (run ops (snd (fst (step op t w))) (snd (step op t w)))),
       snd (run ops (snd (fst (step op t w))) (snd (step op t w)))).
Proof.
  intros op ops t w. cbn [run]. unfold bind, ret.
  destruct (step op t w) as [[b t1] w1]. cbn [fst snd].
  destruct (run ops t1 w1) as [[rs t2] w2]. reflexivity.
Qed.

Lemma Inv_run :
  forall ops t w, Inv t w -> Inv (snd (fst (run ops t w))) (snd (run ops t w)).
Proof.
  induction ops as [|op ops IH]; intros t w HI.
  - exact HI.
  - rewrite run_cons. cbn [fst snd]. apply IH. apply Inv_step. exact HI.
Qed.

Lemma Inv_Delete : forall t w, Inv t w -> ordered (snd (Delete t w)).
Proof.
  intros [fl [rw|]] w HI; unfold Inv in HI; cbn [writer_] in HI;
    unfold Delete, reset_writer, reset_file, bind, notify, ret;
    cbn [writer_ file_ fst snd].
  - assert (Hns : no_sink_call (calls (log (RecordWriter_delete rw) w))).
    { cbn [log calls]. apply no_sink_snoc; auto. }
    destruct fl as [f|]; cbn [snd].
    + apply ordered_snoc_sink.
      * apply no_sink_ordered. exact Hns.
      * reflexivity.
      * exists (length (calls w)), rw. cbn [log calls].
        split; [rewrite length_app; cbn; lia | apply nth_error_snoc_new].
      * discriminate.
    + apply no_sink_ordered. exact Hns.
  - destruct HI as (Ho & Hr & Hc). destruct fl as [f|]; cbn [snd].
    + apply ordered_snoc_sink; auto.
    + exact Ho.
Qed.

Lemma ordered_lifetime :
  forall a filename compression_type ops,
    ordered (snd (lifetime filename compression_type ops (init a))).
Proof.
  intros a filename ct ops. unfold lifetime. unfold bind at 1.
  destruct (New filename ct (init a)) as [[t|] w] eqn:HN.
  - apply Inv_New in HN. apply (Inv_run ops) in HN.
    unfold bind at 1.
    destruct (run ops t w) as [[rs t'] w'] eqn:HR. cbn [fst snd] in *.
    unfold bind, ret.
    pose proof (Inv_Delete t' w' HN) as HD.
    destruct (Delete t' w') as [t'' w'']. exact HD.
  - unfold ret. cbn [snd]. apply no_sink_ordered.
    revert HN. unfold New, bind, call, notify, ret, log, init.
    cbn [calls answers length app].
    destruct (ok (a 0)); cbn [negb]; [discriminate|].
    intros H; inversion H; subst. cbn [calls].
    intros [|[|i]] c Hi; cbn in Hi; inversion Hi; reflexivity.
Qed.

Lemma Close_file_keeps_writer :
  forall t w, writer_ (snd (fst (Close_file t w))) = writer_ t.
Proof.
  intros [[f|] wr] w; unfold_io; [|reflexivity].
  destruct (ok (answers w (length (calls w)))); reflexivity.
Qed.

Lemma handles_ok_step :
  forall op t w,
    handles_ok t = true -> handles_ok (snd (fst (step op t w))) = true.
Proof.
  intros [record| |] t w H; cbn [step].
  - unfold WriteRecord. destruct (writer_ t); exact H.
  - unfold Flush. destruct (writer_ t); exact H.
  - rewrite Close_eq. destruct (writer_ t) as [rw|] eqn:Hw.
    + destruct (ok (answers w (length (calls w)))); [|exact H].
      unfold handles_ok. rewrite Close_file_keeps_writer. reflexivity.
    + unfold handles_ok. rewrite Close_file_keeps_writer, Hw. reflexivity.
Qed.

Lemma handles_ok_run :
  forall ops t w,
    handles_ok t = true -> handles_ok (snd (fst (run ops t w))) = true.
Proof.
  induction ops as [|op ops IH]; intros t w H.
  - exact H.
  - rewrite run_cons. cbn [fst snd]. apply IH. apply handles_ok_step. exact H.
Qed.

(** C1.  Over a whole lifetime (New, any operations, destruction) and for
    every behaviour of TensorFlow: each call that closes or releases the file
    comes after the record writer's release, each Close of the file comes
    after a successful Close of the record writer, and no call on the record
    writer comes after one that closes or releases the file.  On an open
    writer, Close calls the record writer's Close first and goes on to the
    file only when that succeeded; destruction releases the record writer,
    then the file. *)
Theorem filter_finalized_before_sink :
  (forall a filename compression_type ops,
     ordered (snd (lifetime filename compression_type ops (init a)))) /\
  (forall a filename compression_type ops t w,
     New filename compression_type (init a) = (Some t, w) ->
     ordered (snd (run ops t w))) /\
  (forall t w rw f,
     writer_ t = Some rw -> file_ t = Some f ->
     calls (snd (Close t w)) =
       calls w ++
         RecordWriter_Close rw ::
         (if ok (answers w (length (calls w))) then
            RecordWriter_delete rw :: WritableFile_Close f ::
            (if ok (answers w (length (calls w) + 2)) then
               [WritableFile_delete f]
             else [])
          else [])) /\
  (forall t w rw f,
     writer_ t = Some rw -> file_ t = Some f ->
     Delete t w =
       (closed, log (WritableFile_delete f) (log (RecordWriter_delete rw) w))).
Proof.
  split; [exact ordered_lifetime|]. split; [|split].
  - intros a filename ct ops t w HN.
    apply Inv_New in HN. apply (Inv_run ops) in HN.
    exact (Inv_ordered _ _ HN).
  - intros [fl wr] w rw f Hrw Hf; cbn in Hrw, Hf; subst fl wr.
    rewrite Close_eq. cbn [writer_ file_].
    destruct (ok (answers w (length (calls w)))); [|reflexivity].
    unfold Close_file, reset_file, bind, call, notify, ret, log.
    cbn [file_ writer_ calls answers].
    rewrite !length_app. cbn [length].
    replace (length (calls w) + 1 + 1) with (length (calls w) + 2) by lia.
    destruct (ok (answers w (length (calls w) + 2))); cbn [negb snd calls];
      rewrite <- !app_assoc; reflexivity.
  - intros [fl wr] w rw f Hrw Hf; cbn in Hrw, Hf; subst fl wr. reflexivity.
Qed.

(** C9.  A writer returned by New has both handles set, and after any
    sequence of WriteRecord, Flush and Close calls on it the record
    writer's handle is set only if the file's handle is. *)
Theorem filter_never_without_sink :
  forall filename compression_type ops w t w1,
    New filename compression_type w = (Some t, w1) ->
    handles_ok t = true /\
    handles_ok (snd (fst (run ops t w1))) = true.
Proof.
  intros filename ct ops w t w1 HN.
  assert (H0 : handles_ok t = true).
  { revert HN. unfold New, bind, call, notify, ret.
    destruct (ok (answers w (length (calls w)))); cbn [negb];
      [|discriminate].
    intros H; inversion H. reflexivity. }
  split; [exact H0 | apply handles_ok_run; exact H0].
Qed.

(** ** Concrete runs *)

(** C2: a run in which only the file's Close fails (the fifth call).
    The first Close returns false and leaves [file_] set; the second Close
    calls the file's Close a second time. *)
Lemma Close_sink_failure_counterexample :
  session (fails_at 4) "out.tfrecord" "" [OpClose] =
    (Some ([false], {| file_ := Some file0; writer_ := None |}),
     [Env_NewWritableFile "out.tfrecord";
      RecordWriter_new file0 (CreateRecordWriterOptions "");
      RecordWriter_Close (rw0 "");
      RecordWriter_delete (rw0 "");
      WritableFile_Close file0]) /\
  session (fails_at 4) "out.tfrecord" "" [OpClose; OpClose] =
    (Some ([false; true], closed),
     [Env_NewWritableFile "out.tfrecord";
      RecordWriter_new file0 (CreateRecordWriterOptions "");
      RecordWriter_Close (rw0 "");
      RecordWriter_delete (rw0 "");
      WritableFile_Close file0;
      WritableFile_Close file0;
      WritableFile_delete file0]).
Proof. split; reflexivity. Qed.

(** C3: an unrecognised compression type does not make New fail. *)
Lemma New_unrecognized_counterexample :
  recognized "SNAPPY" = false /\
  session always_ok "out.tfrecord" "SNAPPY" [] =
    (Some ([], open0 "SNAPPY"),
     [Env_NewWritableFile "out.tfrecord";
      RecordWriter_new file0 (CreateRecordWriterOptions "SNAPPY")]).
Proof. split; reflexivity. Qed.

Lemma filter_finalized_before_sink_witness :
  ordered (snd (run [OpClose; OpClose]
                  (open0 "GZIP") (world0 (fails_at 4) "GZIP"))) /\
  calls (snd (Close (open0 "GZIP") (world0 (fails_at 4) "GZIP"))) =
    [Env_NewWritableFile "out.tfrecord";
     RecordWriter_new file0 (CreateRecordWriterOptions "GZIP");
     RecordWriter_Close (rw0 "GZIP");
     RecordWriter_delete (rw0 "GZIP");
     WritableFile_Close file0] /\
  Delete (open0 "GZIP") (world0 always_ok "GZIP") =
    (closed,
     log (WritableFile_delete file0)
       (log (RecordWriter_delete (rw0 "GZIP")) (world0 always_ok "GZIP"))).
Proof.
  split; [|split].
  - exact (proj1 (proj2 filter_finalized_before_sink)
             (fails_at 4) "out.tfrecord"%string "GZIP"%string
             [OpClose; OpClose]
             (open0 "GZIP") (world0 (fails_at 4) "GZIP") eq_refl).
  - exact (proj1 (proj2 (proj2 filter_finalized_before_sink))
             (open0 "GZIP") (world0 (fails_at 4) "GZIP") (rw0 "GZIP") file0
             eq_refl eq_refl).
  - exact (proj2 (proj2 (proj2 filter_finalized_before_sink))
             (open0 "GZIP") (world0 always_ok "GZIP") (rw0 "GZIP") file0
             eq_refl eq_refl).
Defined.

Lemma New_ignores_compression_type_witness :
  option_map options (writer_ (open0 "SNAPPY")) =
    Some (CreateRecordWriterOptions "SNAPPY").
Proof.
  exact (proj2 (New_ignores_compression_type "out.tfrecord" "SNAPPY"
                  (init always_ok)) (open0 "SNAPPY") eq_refl).
Defined.

Lemma Close_sink_failure_keeps_file_witness :
  Close (open0 "") (world0 (fails_at 4) "") =
    (false, {| file_ := Some file0; writer_ := None |},
     {| answers := fails_at 4;
        calls := calls (world0 (fails_at 4) "") ++
                 [RecordWriter_Close (rw0 ""); RecordWriter_delete (rw0 "");
                  WritableFile_Close file0] |}).
Proof.
  exact (proj1 (Close_sink_failure_keeps_file
                  (open0 "") (world0 (fails_at 4) "") (rw0 "") file0
                  eq_refl eq_refl eq_refl eq_refl)).
Defined.

Lemma Close_idempotent_witness :
  Close closed (world0 always_ok "ZLIB") =
    (true, closed, world0 always_ok "ZLIB") /\
  Close closed (snd (Close (open0 "ZLIB") (world0 always_ok "ZLIB"))) =
    (true, closed, snd (Close (open0 "ZLIB") (world0 always_ok "ZLIB"))).
Proof.
  split.
  - exact (proj1 (Close_idempotent closed (world0 always_ok "ZLIB"))
             eq_refl).
  - exact (proj2 (Close_idempotent (open0 "ZLIB") (world0 always_ok "ZLIB"))
             closed (snd (Close (open0 "ZLIB") (world0 always_ok "ZLIB")))
             eq_refl).
Defined.

Lemma closed_rejects_io_witness :
  WriteRecord ["h"%byte; "i"%byte] closed
    (snd (Close (open0 "") (world0 always_ok ""))) =
    (false, closed, snd (Close (open0 "") (world0 always_ok ""))) /\
  Flush closed (snd (Close (open0 "") (world0 always_ok ""))) =
    (false, closed, snd (Close (open0 "") (world0 always_ok ""))).
Proof.
  exact (closed_rejects_io (open0 "") (world0 always_ok "") closed
           (snd (Close (open0 "") (world0 always_ok ""))) eq_refl
           ["h"%byte; "i"%byte]).
Defined.

Lemma WriteRecord_failure_keeps_open_witness :
  exists w',
    WriteRecord ["a"%byte] (open0 "") (world0 (fails_at 2) "") =
      (false, open0 "", w') /\
    calls w' = calls (world0 (fails_at 2) "") ++
               [RecordWriter_WriteRecord (rw0 "") ["a"%byte]] /\
    answers w' = fails_at 2 /\
    forall record2,
      ok (answers w' (length (calls w'))) = true ->
      fst (WriteRecord record2 (open0 "") w') = (true, open0 "").
Proof.
  exact (WriteRecord_failure_keeps_open (open0 "")
           (world0 (fails_at 2) "") (rw0 "") ["a"%byte] eq_refl eq_refl).
Defined.

Lemma New_all_or_nothing_witness :
  New "out.tfrecord" "GZIP" (init (fails_at 0)) =
    (None, log (Env_NewWritableFile "out.tfrecord") (init (fails_at 0))) /\
  (New "out.tfrecord" "GZIP" (init always_ok) =
     (Some (open0 "GZIP"),
      log (RecordWriter_new file0 (CreateRecordWriterOptions "GZIP"))
        (log (Env_NewWritableFile "out.tfrecord") (init always_ok))) /\
   is_open (open0 "GZIP") = true) /\
  (open0 "GZIP" = open0 "GZIP" /\ ok (always_ok 0) = true).
Proof.
  split; [|split].
  - exact (proj1 (New_all_or_nothing "out.tfrecord" "GZIP"
                    (init (fails_at 0))) eq_refl).
  - exact (proj1 (proj2 (New_all_or_nothing "out.tfrecord" "GZIP"
                           (init always_ok))) eq_refl).
  - exact (proj2 (proj2 (New_all_or_nothing "out.tfrecord" "GZIP"
                           (init always_ok))) (open0 "GZIP") eq_refl).
Defined.

(** C7: with an unrecognised compression type the compression filter
    cannot be resolved as asked, yet New returns a writer in the open
    state. *)
Lemma New_filter_failure_counterexample :
  recognized "LZ4" = false /\
  fst (New "out.tfrecord" "LZ4" (init always_ok)) = Some (open0 "LZ4") /\
  is_open (open0 "LZ4") = true /\
  calls (snd (New "out.tfrecord" "LZ4" (init always_ok))) =
    [Env_NewWritableFile "out.tfrecord";
     RecordWriter_new file0 (CreateRecordWriterOptions "LZ4")].
Proof. repeat split; reflexivity. Qed.

Lemma filter_never_without_sink_witness :
  handles_ok (open0 "ZLIB") = true /\
  handles_ok
    (snd (fst (run [OpWriteRecord []; OpClose; OpFlush; OpClose]
                 (open0 "ZLIB") (world0 (fails_at 5) "ZLIB")))) = true.
Proof.
  exact (filter_never_without_sink "out.tfrecord" "ZLIB"
           [OpWriteRecord []; OpClose; OpFlush; OpClose]
           (init (fails_at 5)) (open0 "ZLIB") (world0 (fails_at 5) "ZLIB")
           eq_refl).
Defined.

Lemma closed_is_permanent_witness :
  (file_ closed = None /\ writer_ closed = None) /\
  run [OpWriteRecord []; OpFlush; OpClose; OpWriteRecord ["x"%byte]]
      closed (world0 always_ok "") =
    ([false; false; true; false], closed, world0 always_ok "").
Proof.
  split.
  - exact (proj1 (closed_is_permanent (open0 "") (world0 always_ok ""))
             closed (snd (Close (open0 "") (world0 always_ok ""))) eq_refl).
  - exact (proj2 (closed_is_permanent closed (world0 always_ok "")) eq_refl
             [OpWriteRecord []; OpFlush; OpClose; OpWriteRecord ["x"%byte]]).
Defined.

(** ** The frame codec *)

Lemma Z_of_byte_of_Z : forall z, Z_of_byte (byte_of_Z z) = (z mod 256)%Z.
Proof.
  intros z. unfold Z_of_byte, byte_of_Z.
  assert (Hr : (0 <= z mod 256 < 256)%Z) by (apply Z.mod_pos_bound; lia).
  destruct (Byte.of_N (Z.to_N (z mod 256))) as [b|] eqn:Hb.
  - apply Byte.to_of_N in Hb. rewrite Hb. rewrite Z2N.id; lia.
  - apply Byte.of_N_None_iff in Hb. lia.
Qed.

Lemma length_EncodeFixed : forall n v, length (EncodeFixed n v) = n.
Proof.
  induction n as [|n IH]; intros v; cbn [EncodeFixed length];
    [reflexivity | rewrite IH; reflexivity].
Qed.

Lemma DecodeFixed_EncodeFixed :
  forall n v,
    DecodeFixed (EncodeFixed n v) = (v mod 2 ^ (8 * Z.of_nat n))%Z.
Proof.
  induction n as [|n IH]; intros v.
  - cbn. rewrite Z.mod_1_r. reflexivity.
  - cbn [EncodeFixed DecodeFixed]. rewrite Z_of_byte_of_Z, IH.
    replace (8 * Z.of_nat (S n))%Z with (8 + 8 * Z.of_nat n)%Z by lia.
    rewrite Z.pow_add_r by lia. change (2 ^ 8)%Z with 256%Z.
    rewrite Z.rem_mul_r by lia. reflexivity.
Qed.

Lemma Mask_range :
  forall rot delta crc, (0 <= Mask rot delta crc < 2 ^ 32)%Z.
Proof. intros rot delta crc. unfold Mask. apply Z.mod_pos_bound. lia. Qed.

Lemma DecodeFixed_EncodeFixed32_MaskedCrc :
  forall rot delta bs,
    DecodeFixed (EncodeFixed32 (MaskedCrc rot delta bs)) =
      MaskedCrc rot delta bs.
Proof.
  intros rot delta bs. unfold EncodeFixed32.
  rewrite DecodeFixed_EncodeFixed. apply Z.mod_small.
  change (2 ^ (8 * Z.of_nat 4))%Z with (2 ^ 32)%Z. apply Mask_range.
Qed.

Example crc32c_check_value :
  crc32c ["1"; "2"; "3"; "4"; "5"; "6"; "7"; "8"; "9"]%byte = 0xE3069283%Z.
Proof. vm_compute. reflexivity. Qed.

Lemma firstn_app_exact :
  forall (n : nat) (l r : bytes), length l = n -> firstn n (l ++ r) = l.
Proof.
  intros n l r H. subst n. induction l as [|b l IH]; cbn.
  - reflexivity.
  - rewrite IH. reflexivity.
Qed.

Lemma skipn_app_exact :
  forall (n : nat) (l r : bytes), length l = n -> skipn n (l ++ r) = r.
Proof.
  intros n l r H. subst n. induction l as [|b l IH]; cbn.
  - reflexivity.
  - exact IH.
Qed.

(** C8.  For every payload, empty or not, and whatever the masking
    constants: the frame is [8 + 4 + len + 4] bytes long; its first eight
    bytes are the payload length as a little-endian [uint64]; the next four
    are, little-endian, the masked CRC-32C of those eight bytes; then comes
    the payload itself; the last four are, little-endian, the masked CRC-32C
    of the payload.  On an open writer WriteRecord makes one call, which
    hands the record over unchanged to be framed this way. *)
Theorem Encode_layout :
  forall rot delta p,
    length (Encode rot delta p) = 8 + 4 + length p + 4 /\
    DecodeFixed (firstn 8 (Encode rot delta p)) =
      (Z.of_nat (length p) mod 2 ^ 64)%Z /\
    DecodeFixed (firstn 4 (skipn 8 (Encode rot delta p))) =
      MaskedCrc rot delta (firstn 8 (Encode rot delta p)) /\
    firstn (length p) (skipn 12 (Encode rot delta p)) = p /\
    DecodeFixed (skipn (12 + length p) (Encode rot delta p)) =
      MaskedCrc rot delta p /\
    (forall t w rw,
       writer_ t = Some rw ->
       exists c,
         calls (snd (WriteRecord p t w)) = calls w ++ [c] /\
         frame_of_call rot delta c = Some (Encode rot delta p)).
Proof.
  intros rot delta p. unfold Encode. cbv zeta.
  set (h := EncodeFixed64 (Z.of_nat (length p))).
  set (c1 := EncodeFixed32 (MaskedCrc rot delta h)).
  set (c2 := EncodeFixed32 (MaskedCrc rot delta p)).
  assert (Hh : length h = 8) by apply length_EncodeFixed.
  assert (Hc1 : length c1 = 4) by apply length_EncodeFixed.
  assert (Hc2 : length c2 = 4) by apply length_EncodeFixed.
  assert (Hhc : length (h ++ c1) = 12) by (rewrite length_app; lia).
  assert (Hhcp : length ((h ++ c1) ++ p) = 12 + length p)
    by (rewrite length_app; lia).
  split; [rewrite !length_app; lia|].
  split.
  { rewrite firstn_app_exact by exact Hh. unfold h, EncodeFixed64.
    rewrite DecodeFixed_EncodeFixed. reflexivity. }
  split.
  { rewrite skipn_app_exact by exact Hh.
    rewrite !firstn_app_exact by assumption.
    apply DecodeFixed_EncodeFixed32_MaskedCrc. }
  split.
  { rewrite (app_assoc h c1). rewrite skipn_app_exact by exact Hhc.
    apply firstn_app_exact. reflexivity. }
  split.
  { rewrite (app_assoc h c1), (app_assoc (h ++ c1) p).
    rewrite skipn_app_exact by exact Hhcp.
    apply DecodeFixed_EncodeFixed32_MaskedCrc. }
  intros t w rw Hrw. unfold WriteRecord. rewrite Hrw.
  exists (RecordWriter_WriteRecord rw p). split; reflexivity.
Qed.

Lemma Encode_layout_witness :
  exists c,
    calls (snd (WriteRecord ["h"; "e"; "l"; "l"; "o"]%byte
                  (open0 "") (world0 always_ok ""))) =
      calls (world0 always_ok "") ++ [c] /\
    frame_of_call tf_kMaskRotate tf_kMaskDelta c =
      Some (Encode tf_kMaskRotate tf_kMaskDelta
              ["h"; "e"; "l"; "l"; "o"]%byte).
Proof.
  exact (proj2 (proj2 (proj2 (proj2 (proj2
           (Encode_layout tf_kMaskRotate tf_kMaskDelta
              ["h"; "e"; "l"; "l"; "o"]%byte)))))
           (open0 "") (world0 always_ok "") (rw0 "") eq_refl).
Defined.

(** The frames of the payloads [hello] and the empty payload, with the
    format's masking constants. *)
Example Encode_hello :
  map Z_of_byte
    (Encode tf_kMaskRotate tf_kMaskDelta ["h"; "e"; "l"; "l"; "o"]%byte) =
    [5; 0; 0; 0; 0; 0; 0; 0; 234; 178; 4; 62;
     104; 101; 108; 108; 111; 187; 31; 28; 25]%Z.
Proof. vm_compute. reflexivity. Qed.

Example Encode_empty :
  map Z_of_byte (Encode tf_kMaskRotate tf_kMaskDelta []) =
    [0; 0; 0; 0; 0; 0; 0; 0; 41; 3; 152; 7; 216; 234; 130; 162]%Z.
Proof. vm_compute. reflexivity. Qed.

(** New without compression, two records, Close: the record writer is
    handed the two payloads in order, then closed and released before the
    file is closed and released. *)
Example session_hello :
  session always_ok "out.tfrecord" ""
    [OpWriteRecord ["h"; "e"; "l"; "l"; "o"]%byte; OpWriteRecord []; OpClose] =
    (Some ([true; true; true], closed),
     [Env_NewWritableFile "out.tfrecord";
      RecordWriter_new file0 (CreateRecordWriterOptions "");
      RecordWriter_WriteRecord (rw0 "") ["h"; "e"; "l"; "l"; "o"]%byte;
      RecordWriter_WriteRecord (rw0 "") [];
      RecordWriter_Close (rw0 "");
      RecordWriter_delete (rw0 "");
      WritableFile_Close file0;
      WritableFile_delete file0]).
Proof. reflexivity. Qed.

(** A writer destroyed while open: the record writer goes first. *)
Example lifetime_without_Close :
  calls (snd (lifetime "out.tfrecord" "GZIP" [OpFlush] (init always_ok))) =
    [Env_NewWritableFile "out.tfrecord";
     RecordWriter_new file0 (CreateRecordWriterOptions "GZIP");
     RecordWriter_Flush (rw0 "GZIP");
     RecordWriter_delete (rw0 "GZIP");
     WritableFile_delete file0].
Proof. reflexivity. Qed.

(** * Further properties of the writer *)

(** ** The methods, with the collaborator's answers made explicit *)

Lemma Close_file_eq :
  forall t w,
    Close_file t w =
      match file_ t with
      | Some f =>
          if ok (answers w (length (calls w))) then
            (true, {| file_ := None; writer_ := writer_ t |},
             log (WritableFile_delete f) (log (WritableFile_Close f) w))
          else
            (false, t, log (WritableFile_Close f) w)
      | None => (true, t, w)
      end.
Proof.
  intros t w. unfold Close_file. destruct (file_ t) as [f|] eqn:Hf;
    [|reflexivity].
  unfold bind at 1. unfold call at 1.
  destruct (ok (answers w (length (calls w)))); cbn [negb]; [|reflexivity].
  unfold bind, reset_file, notify, ret. rewrite Hf. reflexivity.
Qed.

Lemma Delete_eq :
  forall t w,
    Delete t w =
      (closed,
       {| answers := answers w;
          calls := calls w ++
                   match writer_ t with
                   | Some rw => [RecordWriter_delete rw]
                   | None => []
                   end ++
                   match file_ t with
                   | Some f => [WritableFile_delete f]
                   | None => []
                   end |}).
Proof.
  intros [[f|] [rw|]] [a l];
    unfold Delete, reset_writer, reset_file, bind, notify, ret, log, closed;
    cbn [file_ writer_ answers calls app];
    rewrite <- ?app_assoc, ?app_nil_r; reflexivity.
Qed.

Lemma New_init_eq :
  forall a filename compression_type,
    New filename compression_type (init a) =
      let f := {| fid := 0; fname := filename |} in
      let opts := CreateRecordWriterOptions compression_type in
      if ok (a 0) then
        (Some {| file_ := Some f;
                 writer_ := Some {| dest := f; options := opts |} |},
         {| answers := a;
            calls := [Env_NewWritableFile filename;
                      RecordWriter_new f opts] |})
      else
        (None, {| answers := a; calls := [Env_NewWritableFile filename] |}).
Proof.
  intros a filename ct. unfold New, bind, call, notify, ret, log, init.
  cbn [calls answers length app]. destruct (ok (a 0)); reflexivity.
Qed.

Lemma lifetime_eq :
  forall filename compression_type ops w0,
    snd (lifetime filename compression_type ops w0) =
      match New filename compression_type w0 with
      | (Some t, w) =>
          snd (Delete (snd (fst (run ops t w))) (snd (run ops t w)))
      | (None, w) => w
      end.
Proof.
  intros filename ct ops w0. unfold lifetime. unfold bind at 1.
  destruct (New filename ct w0) as [[t|] w]; [|reflexivity].
  unfold bind at 1. destruct (run ops t w) as [[rs t'] w'].
  unfold bind, ret. cbn [fst snd].
  destruct (Delete t' w') as [t'' w'']. reflexivity.
Qed.

(** ** Every operation is a sequence of moves *)

Lemma reaches_one : forall s1 s2, move s1 s2 -> reaches s1 s2.
Proof. intros s1 s2 H. eapply reaches_move; [exact H | apply reaches_refl]. Qed.

Lemma reaches_trans :
  forall s1 s2 s3, reaches s1 s2 -> reaches s2 s3 -> reaches s1 s3.
Proof.
  intros s1 s2 s3 H12. induction H12 as [s|s1 s2 s2' Hm _ IH]; intros H23.
  - exact H23.
  - eapply reaches_move; [exact Hm | apply IH; exact H23].
Qed.

Lemma Close_file_reaches :
  forall t w,
    writer_ t = None ->
    reaches (t, w) (snd (fst (Close_file t w)), snd (Close_file t w)).
Proof.
  intros t w Hw. rewrite Close_file_eq. destruct (file_ t) as [f|] eqn:Hf.
  - destruct (ok (answers w (length (calls w)))) eqn:Hok; cbn [fst snd].
    + rewrite Hw. apply reaches_one. apply move_file_Close_ok; assumption.
    + apply reaches_one. apply move_file_Close_failed; assumption.
  - apply reaches_refl.
Qed.

Lemma step_reaches :
  forall op t w,
    reaches (t, w) (snd (fst (step op t w)), snd (step op t w)).
Proof.
  intros [record| |] t w; cbn [step].
  - unfold WriteRecord. destruct (writer_ t) as [rw|] eqn:Hw.
    + apply reaches_one. apply move_WriteRecord. exact Hw.
    + apply reaches_refl.
  - unfold Flush. destruct (writer_ t) as [rw|] eqn:Hw.
    + apply reaches_one. apply move_Flush. exact Hw.
    + apply reaches_refl.
  - rewrite Close_eq. destruct (writer_ t) as [rw|] eqn:Hw.
    + destruct (ok (answers w (length (calls w)))) eqn:Hok.
      * eapply reaches_move.
        { apply move_writer_Close_ok; [exact Hw | exact Hok]. }
        apply Close_file_reaches. reflexivity.
      * apply reaches_one. apply move_writer_Close_failed; assumption.
    + apply Close_file_reaches. exact Hw.
Qed.

Lemma run_reaches :
  forall ops t w,
    reaches (t, w) (snd (fst (run ops t w)), snd (run ops t w)).
Proof.
  induction ops as [|op ops IH]; intros t w.
  - apply reaches_refl.
  - rewrite run_cons. cbn [fst snd].
    eapply reaches_trans; [apply step_reaches | apply IH].
Qed.

(** What every move preserves, every run preserves. *)
Lemma run_invariant :
  forall (P : TFRecordWriter * World -> Prop),
    (forall s s', move s s' -> P s -> P s') ->
    forall ops t w,
      P (t, w) -> P (snd (fst (run ops t w)), snd (run ops t w)).
Proof.
  intros P Hmove ops t w H0.
  pose proof (run_reaches ops t w) as Hr.
  induction Hr as [s|s1 s2 s3 Hm _ IH]; [exact H0|].
  apply IH. exact (Hmove _ _ Hm H0).
Qed.

(** ** Close *)

(** X1.  Close returns true exactly when it leaves both handles null: a
    false result always leaves a handle set, a true one never does. *)
Theorem Close_result_is_closed :
  forall t w, fst (fst (Close t w)) = is_closed (snd (fst (Close t w))).
Proof.
  intros [fl wr] w. rewrite Close_eq. cbn [writer_ file_].
  destruct wr as [rw|].
  - destruct (ok (answers w (length (calls w)))); [|reflexivity].
    rewrite Close_file_eq. cbn [file_ writer_].
    destruct fl as [f|]; [|reflexivity].
    destruct (ok (answers (log (RecordWriter_delete rw)
                             (log (RecordWriter_Close rw) w)) _));
      reflexivity.
  - rewrite Close_file_eq. cbn [file_ writer_].
    destruct fl as [f|]; [|reflexivity].
    destruct (ok (answers w (length (calls w)))); reflexivity.
Qed.

(** X2.  Whatever state the writer is in, when every call from now on
    succeeds Close returns true and leaves both handles null. *)
Theorem Close_succeeds_when_calls_succeed :
  forall t w,
    (forall i, length (calls w) <= i -> ok (answers w i) = true) ->
    fst (Close t w) = (true, closed).
Proof.
  intros [fl wr] w Hok. rewrite Close_eq. cbn [writer_ file_].
  destruct wr as [rw|].
  - rewrite (Hok (length (calls w))) by lia.
    rewrite Close_file_eq. cbn [file_ writer_ log answers calls].
    destruct fl as [f|]; [|reflexivity].
    rewrite Hok; [reflexivity|]. rewrite !length_app. lia.
  - rewrite Close_file_eq. cbn [file_ writer_].
    destruct fl as [f|]; [|reflexivity].
    rewrite (Hok (length (calls w))) by lia. reflexivity.
Qed.

(** X3.  While the record writer's Close keeps failing, Close can be
    called any number of times: each call returns false, the writer keeps
    both handles, and the only calls made are the record writer's Close,
    once per attempt; the file is never touched. *)
Theorem Close_filter_failure_repeats :
  forall n t w rw,
    writer_ t = Some rw ->
    (forall k, k < n -> ok (answers w (length (calls w) + k)) = false) ->
    run (repeat OpClose n) t w =
      (repeat false n, t,
       {| answers := answers w;
          calls := calls w ++ repeat (RecordWriter_Close rw) n |}).
Proof.
  induction n as [|n IH]; intros t w rw Hrw Hfail.
  - cbn [repeat run]. unfold ret. rewrite app_nil_r.
    destruct w; reflexivity.
  - cbn [repeat]. rewrite run_cons. cbn [step].
    assert (HC : Close t w = (false, t, log (RecordWriter_Close rw) w)).
    { rewrite Close_eq, Hrw.
      specialize (Hfail 0 (Nat.lt_0_succ n)). rewrite Nat.add_0_r in Hfail.
      rewrite Hfail. reflexivity. }
    rewrite HC. cbn [fst snd].
    rewrite (IH t (log (RecordWriter_Close rw) w) rw Hrw).
    + cbn [fst snd log answers calls]. rewrite <- app_assoc. reflexivity.
    + intros k Hk. cbn [log answers calls]. rewrite length_app. cbn [length].
      replace (length (calls w) + 1 + k) with (length (calls w) + S k) by lia.
      apply Hfail. lia.
Qed.

(** ** Destruction *)

(** X4.  Destruction always ends with both handles null, and after a
    Close that returned true it makes no call at all. *)
Theorem Delete_after_Close_is_silent :
  forall t w,
    fst (Delete t w) = closed /\
    (forall t' w', Close t w = (true, t', w') ->
                   Delete t' w' = (closed, w')).
Proof.
  intros t w. split.
  - rewrite Delete_eq. reflexivity.
  - intros t' w' H. apply Close_ok_closes in H. subst t'. reflexivity.
Qed.

(** ** Handles *)

(** X5.  No sequence of operations sets a handle again: from any state, a
    handle that is null stays null. *)
Theorem handles_never_restored :
  forall ops t w,
    held (writer_ (snd (fst (run ops t w)))) <= held (writer_ t) /\
    held (file_ (snd (fst (run ops t w)))) <= held (file_ t).
Proof.
  intros ops t w.
  apply (run_invariant
           (fun s => held (writer_ (fst s)) <= held (writer_ t) /\
                     held (file_ (fst s)) <= held (file_ t))).
  - intros s s' Hm [H1 H2].
    destruct Hm; cbn [fst snd file_ writer_ held] in *; split; lia.
  - cbn [fst]. split; lia.
Qed.

(** ** WriteRecord and Flush *)

Lemma step_io_open :
  forall op t w rw,
    writer_ t = Some rw -> is_close_op op = false ->
    step op t w =
      (ok (answers w (length (calls w))), t, log (op_call rw op) w).
Proof.
  intros [record| |] t w rw Hrw Hop; try discriminate; cbn [step op_call].
  - unfold WriteRecord. rewrite Hrw. reflexivity.
  - unfold Flush. rewrite Hrw. reflexivity.
Qed.

Lemma written_snoc :
  forall l c,
    written (l ++ [c]) =
      written l ++ match c with
                   | RecordWriter_WriteRecord _ record => [record]
                   | _ => []
                   end.
Proof.
  intros l c. induction l as [|x l IH].
  - destruct c; reflexivity.
  - destruct x; cbn [app written]; rewrite IH; reflexivity.
Qed.

Lemma written_app :
  forall l l', written (l ++ l') = written l ++ written l'.
Proof.
  intros l l'. induction l as [|x l IH]; [reflexivity|].
  destruct x; cbn [app written]; rewrite ?IH; reflexivity.
Qed.

Lemma written_op_calls :
  forall rw ops, written (map (op_call rw) ops) = records ops.
Proof.
  intros rw ops. induction ops as [|op ops IH]; [reflexivity|].
  destruct op; cbn [map op_call written records]; rewrite IH; reflexivity.
Qed.

Lemma run_io_eq :
  forall ops t w rw,
    writer_ t = Some rw ->
    existsb is_close_op ops = false ->
    run ops t w =
      (results_from (answers w) (length (calls w)) (length ops), t,
       {| answers := answers w;
          calls := calls w ++ map (op_call rw) ops |}).
Proof.
  induction ops as [|op ops IH]; intros t w rw Hrw Hops.
  - cbn. unfold ret. rewrite app_nil_r. destruct w; reflexivity.
  - cbn [existsb] in Hops. apply orb_false_iff in Hops.
    destruct Hops as [Hop Hops].
    rewrite run_cons. rewrite (step_io_open op t w rw Hrw Hop).
    cbn [fst snd].
    rewrite (IH t (log (op_call rw op) w) rw Hrw Hops).
    cbn [fst snd log answers calls map length].
    rewrite length_app. cbn [length].
    replace (length (calls w) + 1) with (S (length (calls w))) by lia.
    rewrite <- app_assoc. reflexivity.
Qed.

(** X6.  On a writer whose record writer is set, a sequence of
    WriteRecord and Flush calls leaves the writer as it is, makes exactly
    one call per operation, in order and with each record passed on
    unchanged, and returns, for each operation, whether its own call
    succeeded: an earlier failure changes nothing for the later ones. *)
Theorem run_without_Close :
  forall ops t w rw,
    writer_ t = Some rw ->
    existsb is_close_op ops = false ->
    snd (fst (run ops t w)) = t /\
    fst (fst (run ops t w)) =
      results_from (answers w) (length (calls w)) (length ops) /\
    calls (snd (run ops t w)) = calls w ++ map (op_call rw) ops /\
    written (calls (snd (run ops t w))) = written (calls w) ++ records ops.
Proof.
  intros ops t w rw Hrw Hops.
  rewrite (run_io_eq ops t w rw Hrw Hops). cbn [fst snd calls].
  repeat (split; [reflexivity|]).
  rewrite written_app. f_equal. apply written_op_calls.
Qed.

(** X7.  A writer that is never closed by hand: when New succeeds and no
    operation is a Close, the whole lifetime makes no Close call on either
    TensorFlow object.  The log is the two calls of New, one call per
    operation, then the release of the record writer and the release of the
    file. *)
Theorem lifetime_without_Close_never_closes :
  forall a filename compression_type ops,
    ok (a 0) = true ->
    existsb is_close_op ops = false ->
    let f := {| fid := 0; fname := filename |} in
    let rw := {| dest := f;
                 options := CreateRecordWriterOptions compression_type |} in
    calls (snd (lifetime filename compression_type ops (init a))) =
      [Env_NewWritableFile filename;
       RecordWriter_new f (CreateRecordWriterOptions compression_type)]
      ++ map (op_call rw) ops
      ++ [RecordWriter_delete rw; WritableFile_delete f] /\
    count is_RecordWriter_Close
      (calls (snd (lifetime filename compression_type ops (init a)))) = 0 /\
    count is_WritableFile_Close
      (calls (snd (lifetime filename compression_type ops (init a)))) = 0.
Proof.
  intros a filename ct ops Hok Hops. cbv zeta.
  set (f := {| fid := 0; fname := filename |}).
  set (rw := {| dest := f; options := CreateRecordWriterOptions ct |}).
  assert (Hlog :
    calls (snd (lifetime filename ct ops (init a))) =
      [Env_NewWritableFile filename;
       RecordWriter_new f (CreateRecordWriterOptions ct)]
      ++ map (op_call rw) ops
      ++ [RecordWriter_delete rw; WritableFile_delete f]).
  { rewrite lifetime_eq, New_init_eq. cbv zeta. rewrite Hok.
    fold f. fold rw.
    rewrite (run_io_eq ops
               {| file_ := Some f; writer_ := Some rw |} _ rw
               eq_refl Hops).
    cbn [fst snd]. rewrite Delete_eq.
    cbn [snd calls answers writer_ file_ app]. reflexivity. }
  split; [exact Hlog|].
  rewrite Hlog. unfold count. rewrite !filter_app, !length_app.
  assert (Hnone : forall p,
            (forall op, is_close_op op = false -> p (op_call rw op) = false) ->
            length (filter p (map (op_call rw) ops)) = 0).
  { intros p Hp. clear Hlog. induction ops as [|op ops IH]; [reflexivity|].
    cbn [existsb] in Hops. apply orb_false_iff in Hops.
    destruct Hops as [Hop Hops]. cbn [map filter].
    rewrite (Hp op Hop). apply IH. exact Hops. }
  split; (rewrite Hnone; [reflexivity|]);
    intros [record| |] Hop; try discriminate; reflexivity.
Qed.

(** ** Counting along a run *)

Lemma count_snoc :
  forall p l c, count p (l ++ [c]) = count p l + (if p c then 1 else 0).
Proof.
  intros p l c. unfold count. rewrite filter_app, length_app. cbn [filter].
  destruct (p c); reflexivity.
Qed.

Lemma count_ok_from_snoc :
  forall a p l i c,
    count_ok_from a p i (l ++ [c]) =
      count_ok_from a p i l + (if p c && ok (a (i + length l)) then 1 else 0).
Proof.
  intros a p l. induction l as [|x l IH]; intros i c.
  - cbn [app count_ok_from length].
    replace (i + 0) with i by lia.
    destruct (p c && ok (a i)); reflexivity.
  - cbn [app count_ok_from length]. rewrite IH.
    replace (S i + length l) with (i + S (length l)) by lia. lia.
Qed.

Lemma count_ok_log :
  forall p c w,
    count_ok p (log c w) =
      count_ok p w +
      (if p c && ok (answers w (length (calls w))) then 1 else 0).
Proof.
  intros p c w. unfold count_ok. cbn [log answers calls].
  rewrite count_ok_from_snoc. reflexivity.
Qed.

(** Deleted objects and held objects add up to one of each. *)
Lemma move_released_once :
  forall s s',
    move s s' ->
    count is_RecordWriter_delete (calls (snd s)) + held (writer_ (fst s)) = 1 /\
    count is_WritableFile_delete (calls (snd s)) + held (file_ (fst s)) = 1 ->
    count is_RecordWriter_delete (calls (snd s')) + held (writer_ (fst s')) = 1
    /\
    count is_WritableFile_delete (calls (snd s')) + held (file_ (fst s')) = 1.
Proof.
  intros s s' Hm [H1 H2].
  destruct Hm as [t w rw record Hw|t w rw Hw|t w rw Hw Hok|t w rw Hw Hok
                 |t w f Hw Hf Hok|t w f Hw Hf Hok];
    cbn [fst snd log calls file_ writer_] in *;
    rewrite ?count_snoc; cbn [is_RecordWriter_delete is_WritableFile_delete];
    rewrite ?Hw, ?Hf in *; cbn [held] in *; split; lia.
Qed.

(** X8.  Over a whole lifetime each object is released exactly once: when
    New succeeds, whatever the operations and whatever fails, the log holds
    one release of the record writer and one release of the file; when New
    fails it holds none. *)
Theorem lifetime_releases_once :
  forall a filename compression_type ops,
    count is_RecordWriter_delete
      (calls (snd (lifetime filename compression_type ops (init a)))) =
      (if ok (a 0) then 1 else 0) /\
    count is_WritableFile_delete
      (calls (snd (lifetime filename compression_type ops (init a)))) =
      (if ok (a 0) then 1 else 0).
Proof.
  intros a filename ct ops. rewrite lifetime_eq, New_init_eq. cbv zeta.
  destruct (ok (a 0)); [|split; reflexivity].
  match goal with
  | |- context [run ops ?t0 ?w0] =>
      pose proof (run_invariant _ move_released_once ops t0 w0) as HI
  end.
  cbn [fst snd calls file_ writer_ held] in HI.
  specialize (HI (conj eq_refl eq_refl)).
  destruct HI as [H1 H2]. rewrite Delete_eq. cbn [snd calls].
  unfold count in *. rewrite !filter_app, !length_app.
  destruct (writer_ _) as [rw|], (file_ _) as [f|];
    cbn [held filter length is_RecordWriter_delete is_WritableFile_delete]
      in *; split; lia.
Qed.

(** A handle is null exactly when its object's Close has succeeded. *)
Lemma move_closed_once :
  forall s s',
    move s s' ->
    count_ok is_RecordWriter_Close (snd s) + held (writer_ (fst s)) = 1 /\
    count_ok is_WritableFile_Close (snd s) + held (file_ (fst s)) = 1 ->
    count_ok is_RecordWriter_Close (snd s') + held (writer_ (fst s')) = 1 /\
    count_ok is_WritableFile_Close (snd s') + held (file_ (fst s')) = 1.
Proof.
  intros s s' Hm [H1 H2].
  destruct Hm as [t w rw record Hw|t w rw Hw|t w rw Hw Hok|t w rw Hw Hok
                 |t w f Hw Hf Hok|t w f Hw Hf Hok];
    cbn [fst snd file_ writer_] in *;
    rewrite ?count_ok_log;
    cbn [is_RecordWriter_Close is_WritableFile_Close andb];
    rewrite ?Hok; rewrite ?Hw, ?Hf in *; cbn [held] in *; split; lia.
Qed.

(** X9.  Between New and destruction no object is closed successfully
    twice, and a handle is null exactly when the Close of its object has
    succeeded: after any operations, the successful Close calls on the
    record writer and the held record-writer handle add up to one, and the
    same for the file. *)
Theorem closed_at_most_once :
  forall a filename compression_type ops t w,
    New filename compression_type (init a) = (Some t, w) ->
    count_ok is_RecordWriter_Close (snd (run ops t w)) +
      held (writer_ (snd (fst (run ops t w)))) = 1 /\
    count_ok is_WritableFile_Close (snd (run ops t w)) +
      held (file_ (snd (fst (run ops t w)))) = 1.
Proof.
  intros a filename ct ops t w HN.
  rewrite New_init_eq in HN. cbv zeta in HN.
  destruct (ok (a 0)) eqn:Hok; [|discriminate].
  inversion HN; subst t w; clear HN.
  apply (run_invariant _ move_closed_once ops).
  cbn [fst snd file_ writer_ held]. unfold count_ok.
  cbn [answers calls count_ok_from is_RecordWriter_Close
       is_WritableFile_Close andb]. split; reflexivity.
Qed.

(** The handles hold, and the calls are on, the given objects only; no
    move opens a file or builds a record writer. *)
Lemma move_own_objects :
  forall f rw s s',
    move s s' ->
    handles_within f rw (fst s) /\ Forall (call_on f rw) (calls (snd s)) ->
    handles_within f rw (fst s') /\ Forall (call_on f rw) (calls (snd s')).
Proof.
  intros f rw s s' Hm [[Hf Hw] Hc].
  assert (Hsnoc : forall l c,
            Forall (call_on f rw) l -> call_on f rw c ->
            Forall (call_on f rw) (l ++ [c])).
  { intros l c Hl Hc'. apply Forall_app. split; [exact Hl|].
    constructor; [exact Hc' | constructor]. }
  destruct Hm as [t w rw' record Hw'|t w rw' Hw'|t w rw' Hw' Hok
                 |t w rw' Hw' Hok|t w f' Hw' Hf' Hok|t w f' Hw' Hf' Hok];
    cbn [fst snd log calls file_ writer_] in *;
    unfold handles_within; cbn [file_ writer_];
    try (assert (rw' = rw) by (destruct Hw as [Hw|Hw]; congruence); subst rw');
    try (assert (f' = f) by (destruct Hf as [Hf|Hf]; congruence); subst f');
    (split; [split; auto|]);
    repeat apply Hsnoc; auto; reflexivity.
Qed.

Lemma move_creates_nothing :
  forall s s',
    move s s' ->
    count is_Env_NewWritableFile (calls (snd s')) =
      count is_Env_NewWritableFile (calls (snd s)) /\
    count is_RecordWriter_new (calls (snd s')) =
      count is_RecordWriter_new (calls (snd s)).
Proof.
  intros s s' Hm.
  destruct Hm; cbn [fst snd log calls]; rewrite ?count_snoc;
    cbn [is_Env_NewWritableFile is_RecordWriter_new]; split; lia.
Qed.

Lemma run_creates_nothing :
  forall ops t w,
    count is_Env_NewWritableFile (calls (snd (run ops t w))) =
      count is_Env_NewWritableFile (calls w) /\
    count is_RecordWriter_new (calls (snd (run ops t w))) =
      count is_RecordWriter_new (calls w).
Proof.
  intros ops t w.
  apply (run_invariant
           (fun s => count is_Env_NewWritableFile (calls (snd s)) =
                       count is_Env_NewWritableFile (calls w) /\
                     count is_RecordWriter_new (calls (snd s)) =
                       count is_RecordWriter_new (calls w))).
  - intros s s' Hm [H1 H2].
    destruct (move_creates_nothing s s' Hm) as [H3 H4]. split; congruence.
  - split; reflexivity.
Qed.

(** X10.  A writer only ever touches the two objects New gave it.
    Through a whole lifetime the only file opened is the one New was asked
    for, opened once; at most one record writer is built, on that file and
    only when the file could be opened; every other call is on that file or
    on that record writer; and after any operations each handle is null or
    still holds that same object. *)
Theorem writer_owns_its_objects :
  forall a filename compression_type ops,
    let f := {| fid := 0; fname := filename |} in
    let rw := {| dest := f;
                 options := CreateRecordWriterOptions compression_type |} in
    Forall (call_on f rw)
      (calls (snd (lifetime filename compression_type ops (init a)))) /\
    count is_Env_NewWritableFile
      (calls (snd (lifetime filename compression_type ops (init a)))) = 1 /\
    count is_RecordWriter_new
      (calls (snd (lifetime filename compression_type ops (init a)))) =
      (if ok (a 0) then 1 else 0) /\
    (forall t w,
       New filename compression_type (init a) = (Some t, w) ->
       handles_within f rw (snd (fst (run ops t w)))).
Proof.
  intros a filename ct ops. cbv zeta.
  set (f := {| fid := 0; fname := filename |}).
  set (rw := {| dest := f; options := CreateRecordWriterOptions ct |}).
  set (t0 := {| file_ := Some f; writer_ := Some rw |}).
  set (w0 := {| answers := a;
                calls := [Env_NewWritableFile filename;
                          RecordWriter_new f
                            (CreateRecordWriterOptions ct)] |}).
  assert (H0 : handles_within f rw (fst (t0, w0))
               /\ Forall (call_on f rw) (calls (snd (t0, w0)))).
  { split; [split; right; reflexivity|].
    cbn [snd w0 calls]. repeat constructor. }
  pose proof (run_invariant _ (move_own_objects f rw) ops t0 w0 H0)
    as [[Hf Hw] Hc].
  cbn [fst snd] in Hf, Hw, Hc.
  destruct (run_creates_nothing ops t0 w0) as [HcN HcR].
  assert (Hlife :
    ok (a 0) = true ->
    calls (snd (lifetime filename ct ops (init a))) =
      calls (snd (run ops t0 w0)) ++
      match writer_ (snd (fst (run ops t0 w0))) with
      | Some rw' => [RecordWriter_delete rw']
      | None => []
      end ++
      match file_ (snd (fst (run ops t0 w0))) with
      | Some f' => [WritableFile_delete f']
      | None => []
      end).
  { intros Hok. rewrite lifetime_eq, New_init_eq. cbv zeta. rewrite Hok.
    fold f. fold rw. fold t0. fold w0. rewrite Delete_eq. reflexivity. }
  assert (Hfail :
    ok (a 0) = false ->
    calls (snd (lifetime filename ct ops (init a))) =
      [Env_NewWritableFile filename]).
  { intros Hok. rewrite lifetime_eq, New_init_eq. cbv zeta. rewrite Hok.
    reflexivity. }
  destruct (ok (a 0)) eqn:Hok.
  - rewrite (Hlife eq_refl).
    split; [|split; [|split]].
    + apply Forall_app. split; [exact Hc|].
      apply Forall_app. split.
      * destruct Hw as [Hw|Hw]; rewrite Hw; repeat constructor.
      * destruct Hf as [Hf|Hf]; rewrite Hf; repeat constructor.
    + unfold count in *. rewrite !filter_app, !length_app, HcN.
      destruct (writer_ _), (file_ _); reflexivity.
    + unfold count in *. rewrite !filter_app, !length_app, HcR.
      destruct (writer_ _), (file_ _); reflexivity.
    + intros t w HN. rewrite New_init_eq in HN. cbv zeta in HN.
      rewrite Hok in HN. fold f in HN. fold rw in HN.
      inversion HN; subst t w. fold t0. fold w0. split; assumption.
  - rewrite (Hfail eq_refl).
    split; [|split; [|split]].
    + repeat constructor.
    + reflexivity.
    + reflexivity.
    + intros t w HN. rewrite New_init_eq in HN. cbv zeta in HN.
      rewrite Hok in HN. discriminate.
Qed.

(** ** What Close leaves behind, and what reaches the record writer *)


Lemma written_after_release :
  forall ops t w,
    writer_ t = None ->
    written (calls (snd (run ops t w))) = written (calls w).
Proof.
  intros ops t w Hw.
  apply (run_invariant
           (fun s => writer_ (fst s) = None /\
                     written (calls (snd s)) = written (calls w))).
  - intros s s' Hm [H1 H2].
    destruct Hm; cbn [fst snd log calls file_ writer_] in *;
      try congruence;
      rewrite ?written_snoc, ?app_nil_r; auto.
  - split; [exact Hw | reflexivity].
Qed.

Lemma writer_stays_null :
  forall ops t w,
    writer_ t = None -> writer_ (snd (fst (run ops t w))) = None.
Proof.
  intros ops t w Hw.
  apply (run_invariant (fun s => writer_ (fst s) = None)); [|exact Hw].
  intros s s' Hm H.
  destruct Hm; cbn [fst snd file_ writer_] in *; congruence.
Qed.

Lemma written_Close_file :
  forall t w, written (calls (snd (Close_file t w))) = written (calls w).
Proof.
  intros t w. rewrite Close_file_eq. destruct (file_ t) as [f|];
    [|reflexivity].
  destruct (ok (answers w (length (calls w)))); cbn [snd log calls];
    rewrite ?written_snoc, ?app_nil_r; reflexivity.
Qed.

(** An operation that finds the record writer set hands over its own
    record, if it has one, and nothing else. *)
Lemma written_step :
  forall op t w rw,
    writer_ t = Some rw ->
    written (calls (snd (step op t w))) = written (calls w) ++ records [op].
Proof.
  intros [record| |] t w rw Hw; cbn [step records].
  - unfold WriteRecord. rewrite Hw. unfold bind, call, ret.
    cbn [snd log calls]. apply written_snoc.
  - unfold Flush. rewrite Hw. unfold bind, call, ret.
    cbn [snd log calls]. rewrite written_snoc. reflexivity.
  - rewrite Close_eq, Hw. rewrite app_nil_r.
    destruct (ok (answers w (length (calls w)))).
    + rewrite written_Close_file. cbn [log calls].
      rewrite !written_snoc, !app_nil_r. reflexivity.
    + cbn [snd log calls]. rewrite written_snoc, app_nil_r. reflexivity.
Qed.

Lemma records_cons :
  forall op ops, records (op :: ops) = records [op] ++ records ops.
Proof. intros [record| |] ops; reflexivity. Qed.

(** X12.  Records reach the record writer in the order they were given,
    each once and unchanged, and none after the record writer's handle has
    gone.  What a sequence of operations adds to the records handed over is
    exactly the records of the operations that found the handle set when
    they started; these are the first [served] operations, all of them when
    the handle is still set at the end; and from a state where the handle is
    null nothing at all is handed over. *)
Theorem records_written_in_order :
  forall ops t w,
    written (calls (snd (run ops t w))) =
      written (calls w) ++ records (firstn (served ops t w) ops) /\
    (is_some (writer_ (snd (fst (run ops t w)))) = true ->
     served ops t w = length ops) /\
    (writer_ t = None ->
     served ops t w = 0 /\
     written (calls (snd (run ops t w))) = written (calls w)).
Proof.
  induction ops as [|op ops IH]; intros t w.
  - cbn. rewrite app_nil_r. repeat split; reflexivity.
  - destruct (writer_ t) as [rw|] eqn:Hw.
    + cbn [served]. rewrite Hw. rewrite run_cons. cbn [fst snd].
      destruct (IH (snd (fst (step op t w))) (snd (step op t w)))
        as (Hwr & Hall & _).
      split; [|split].
      * rewrite Hwr. cbn [firstn]. rewrite records_cons.
        rewrite (written_step op t w rw Hw). rewrite <- app_assoc.
        reflexivity.
      * intros H. cbn [length]. rewrite (Hall H). reflexivity.
      * discriminate.
    + cbn [served]. rewrite Hw.
      split; [|split].
      * cbn [firstn records]. rewrite app_nil_r.
        apply written_after_release. exact Hw.
      * rewrite (writer_stays_null (op :: ops) t w Hw). discriminate.
      * intros _. split; [reflexivity|].
        apply written_after_release. exact Hw.
Qed.

(** ** The further properties on concrete runs *)

Lemma Close_succeeds_when_calls_succeed_witness :
  fst (Close (open0 "ZLIB") (world0 always_ok "ZLIB")) = (true, closed).
Proof.
  exact (Close_succeeds_when_calls_succeed
           (open0 "ZLIB") (world0 always_ok "ZLIB") (fun i _ => eq_refl)).
Defined.

Lemma Close_filter_failure_repeats_witness :
  run [OpClose; OpClose; OpClose] (open0 "GZIP")
      (world0 (fails_from 2) "GZIP") =
    ([false; false; false], open0 "GZIP",
     {| answers := fails_from 2;
        calls := calls (world0 (fails_from 2) "GZIP") ++
                 [RecordWriter_Close (rw0 "GZIP");
                  RecordWriter_Close (rw0 "GZIP");
                  RecordWriter_Close (rw0 "GZIP")] |}).
Proof.
  exact (Close_filter_failure_repeats 3 (open0 "GZIP")
           (world0 (fails_from 2) "GZIP") (rw0 "GZIP") eq_refl
           (fun k _ => eq_refl)).
Defined.

Lemma Delete_after_Close_is_silent_witness :
  Delete closed (snd (Close (open0 "") (world0 always_ok ""))) =
    (closed, snd (Close (open0 "") (world0 always_ok ""))).
Proof.
  exact (proj2 (Delete_after_Close_is_silent (open0 "")
                  (world0 always_ok ""))
           closed (snd (Close (open0 "") (world0 always_ok ""))) eq_refl).
Defined.

Lemma run_without_Close_witness :
  snd (fst (run [OpWriteRecord ["a"%byte]; OpFlush; OpWriteRecord []]
              (open0 "") (world0 (fails_at 3) ""))) = open0 "" /\
  fst (fst (run [OpWriteRecord ["a"%byte]; OpFlush; OpWriteRecord []]
              (open0 "") (world0 (fails_at 3) ""))) =
    results_from (fails_at 3) 2 3 /\
  calls (snd (run [OpWriteRecord ["a"%byte]; OpFlush; OpWriteRecord []]
                (open0 "") (world0 (fails_at 3) ""))) =
    calls (world0 (fails_at 3) "") ++
    [RecordWriter_WriteRecord (rw0 "") ["a"%byte];
     RecordWriter_Flush (rw0 "");
     RecordWriter_WriteRecord (rw0 "") []] /\
  written (calls (snd (run [OpWriteRecord ["a"%byte]; OpFlush;
                            OpWriteRecord []]
                         (open0 "") (world0 (fails_at 3) "")))) =
    written (calls (world0 (fails_at 3) "")) ++ [["a"%byte]; []].
Proof.
  exact (run_without_Close
           [OpWriteRecord ["a"%byte]; OpFlush; OpWriteRecord []]
           (open0 "") (world0 (fails_at 3) "") (rw0 "") eq_refl eq_refl).
Defined.

Lemma lifetime_without_Close_never_closes_witness :
  calls (snd (lifetime "out.tfrecord" "GZIP" [OpFlush] (init always_ok))) =
    [Env_NewWritableFile "out.tfrecord";
     RecordWriter_new file0 (CreateRecordWriterOptions "GZIP")]
    ++ [RecordWriter_Flush (rw0 "GZIP")]
    ++ [RecordWriter_delete (rw0 "GZIP"); WritableFile_delete file0] /\
  count is_RecordWriter_Close
    (calls (snd (lifetime "out.tfrecord" "GZIP" [OpFlush]
                   (init always_ok)))) = 0 /\
  count is_WritableFile_Close
    (calls (snd (lifetime "out.tfrecord" "GZIP" [OpFlush]
                   (init always_ok)))) = 0.
Proof.
  exact (lifetime_without_Close_never_closes always_ok
           "out.tfrecord" "GZIP" [OpFlush] eq_refl eq_refl).
Defined.

Lemma closed_at_most_once_witness :
  count_ok is_RecordWriter_Close
    (snd (run [OpClose; OpClose] (open0 "") (world0 (fails_at 4) ""))) +
    held (writer_ (snd (fst (run [OpClose; OpClose] (open0 "")
                               (world0 (fails_at 4) ""))))) = 1 /\
  count_ok is_WritableFile_Close
    (snd (run [OpClose; OpClose] (open0 "") (world0 (fails_at 4) ""))) +
    held (file_ (snd (fst (run [OpClose; OpClose] (open0 "")
                             (world0 (fails_at 4) ""))))) = 1.
Proof.
  exact (closed_at_most_once (fails_at 4) "out.tfrecord" ""
           [OpClose; OpClose] (open0 "") (world0 (fails_at 4) "") eq_refl).
Defined.

Lemma writer_owns_its_objects_witness :
  handles_within file0 (rw0 "ZLIB")
    (snd (fst (run [OpWriteRecord []; OpClose] (open0 "ZLIB")
                 (world0 (fails_at 5) "ZLIB")))).
Proof.
  exact (proj2 (proj2 (proj2
           (writer_owns_its_objects (fails_at 5) "out.tfrecord" "ZLIB"
              [OpWriteRecord []; OpClose])))
           (open0 "ZLIB") (world0 (fails_at 5) "ZLIB") eq_refl).
Defined.

Lemma records_written_in_order_witness :
  written (calls (snd (run [OpWriteRecord ["a"%byte]; OpClose;
                            OpWriteRecord ["b"%byte]]
                         (open0 "") (world0 (fails_at 4) "")))) =
    written (calls (world0 (fails_at 4) "")) ++ [["a"%byte]] /\
  (served [OpWriteRecord ["b"%byte]; OpFlush]
     {| file_ := Some file0; writer_ := None |} (world0 always_ok "") = 0 /\
   written (calls (snd (run [OpWriteRecord ["b"%byte]; OpFlush]
                          {| file_ := Some file0; writer_ := None |}
                          (world0 always_ok "")))) =
     written (calls (world0 always_ok ""))) /\
  served [OpWriteRecord ["a"%byte]; OpFlush] (open0 "")
    (world0 always_ok "") = 2.
Proof.
  split; [|split].
  - exact (proj1 (records_written_in_order
                    [OpWriteRecord ["a"%byte]; OpClose;
                     OpWriteRecord ["b"%byte]]
                    (open0 "") (world0 (fails_at 4) ""))).
  - exact (proj2 (proj2 (records_written_in_order
                           [OpWriteRecord ["b"%byte]; OpFlush]
                           {| file_ := Some file0; writer_ := None |}
                           (world0 always_ok ""))) eq_refl).
  - exact (proj1 (proj2 (records_written_in_order
                           [OpWriteRecord ["a"%byte]; OpFlush]
                           (open0 "") (world0 always_ok ""))) eq_refl).
Defined.

(** A record given after a successful Close never reaches the record
    writer. *)
Example written_stops_at_Close :
  written (calls (snd (run [OpWriteRecord ["a"%byte]; OpClose;
                            OpWriteRecord ["b"%byte]]
                         (open0 "") (world0 always_ok "")))) = [["a"%byte]].
Proof. reflexivity. Qed.
